(** * PECOK by ADMM: a shallow embedding of [pecok/admm.py]

    The Python module works on dense [numpy] arrays of 64-bit floats.  The
    embedding reads every floating-point operation as the corresponding
    operation on real numbers: an [n]-vector is a function [nat -> R] read on
    the indices below [n], an [n x n] array a function [nat -> nat -> R] read
    on the pairs of indices below [n].  Every definition under a Python name
    follows the body of the Python function of that name line by line.

    What the embedding leaves out: rounding, and the values [inf] and [nan]
    that numpy produces on a zero divisor (division here is the total
    division of [R]; the divisions by zero are studied on separate, checked
    copies of the functions that divide).  A run of the solver meets a zero
    divisor when its input has norm zero, or when it makes a pass with
    [rho = 0] or on matrices of size below [2]: the arrays of the code then
    hold [nan] and the embedding does not follow them, so what is stated of
    the values of a run is stated away from these inputs.  The eigen-solver
    [scipy.linalg.eigh] is not part of the repository: it is a parameter,
    and the statements that depend on it assume what its documentation
    promises, on the matrices they name.

    The file has two parts: the definitions, then the lemmas and theorems. *)

From Stdlib Require Import Reals Lra Lia Psatz Arith Bool List.
From Stdlib Require Import FunctionalExtensionality.
Import ListNotations.

Open Scope R_scope.

(** ** Arrays *)

Definition vec := nat -> R.
Definition mat := nat -> nat -> R.

(** [np.sum] of a vector of length [n]. *)
Fixpoint np_sum (n : nat) (x : vec) : R :=
  match n with
  | O => 0
  | S k => np_sum k x + x k
  end.

(** [np.sum(Y, 1)]: the vector of row sums. *)
Definition np_sum_axis1 (n : nat) (Y : mat) : vec :=
  fun i => np_sum n (Y i).

(** [np.trace]. *)
Definition np_trace (n : nat) (Y : mat) : R :=
  np_sum n (fun i => Y i i).

(** [np.diag(d)] for a vector [d]: the diagonal matrix. *)
Definition np_diag (d : vec) : mat :=
  fun i j => if Nat.eqb i j then d i else 0.

(** [np.diag(M)] for a matrix [M]: the vector of its diagonal. *)
Definition np_diagonal (M : mat) : vec :=
  fun i => M i i.

(** [np.repeat(v, n)] for a scalar [v]. *)
Definition np_repeat (v : R) : vec :=
  fun _ => v.

(** [u.repeat(n).reshape((n, n))]: entry [(i, j)] of the reshaped array is
    element [i * n + j] of the repeated one, that is [u i]. *)
Definition repeat_reshape (u : vec) : mat :=
  fun i _ => u i.

(** [M.T]. *)
Definition transpose (M : mat) : mat :=
  fun i j => M j i.

Definition np_identity : mat :=
  fun i j => if Nat.eqb i j then 1 else 0.

Definition np_zeros : mat :=
  fun _ _ => 0.

Definition madd (A B : mat) : mat := fun i j => A i j + B i j.
Definition msub (A B : mat) : mat := fun i j => A i j - B i j.
Definition mneg (A : mat) : mat := fun i j => - A i j.
Definition mdiv (A : mat) (c : R) : mat := fun i j => A i j / c.

Declare Scope mat_scope.
Delimit Scope mat_scope with M.
Infix "+" := madd : mat_scope.
Infix "-" := msub : mat_scope.
Infix "/" := mdiv : mat_scope.
Notation "- A" := (mneg A) : mat_scope.

(** Sum of the squares of all entries, and [np.linalg.norm] (the Frobenius
    norm, which is what numpy computes when neither [ord] nor [axis] is
    given). *)
Definition sumsq (n : nat) (M : mat) : R :=
  np_sum n (fun i => np_sum n (fun j => M i j * M i j)).

Definition np_linalg_norm (n : nat) (M : mat) : R :=
  sqrt (sumsq n M).

(** Equality of two arrays of shape [(n, n)]. *)
Definition mat_eq (n : nat) (A B : mat) : Prop :=
  forall i j, (i < n)%nat -> (j < n)%nat -> A i j = B i j.

Definition symmetric (n : nat) (A : mat) : Prop :=
  forall i j, (i < n)%nat -> (j < n)%nat -> A i j = A j i.

(** ** The affine projector *)

Definition operator_lstarllstarinv (u : vec) (v : R) : mat :=
  (repeat_reshape u + np_diag (np_repeat v))%M.

Definition proj_lin_Hrows (n : nat) (Y : mat) (K : R) : mat :=
  let n_samples := INR n in
  let x : vec := fun i => np_sum_axis1 n Y i - 1 in
  let y := np_trace n Y - K in
  let invx : vec :=
    fun i => (x i + (np_sum n x - y * n_samples)
                    / (n_samples ^ 2 - n_samples)) / n_samples in
  let invy := ((y - np_sum n x) / (n_samples - 1) + y) / n_samples in
  (Y - operator_lstarllstarinv invx invy)%M.

Definition operator_lstarllstarinv_sym (u : vec) (v : R) : mat :=
  let temp := operator_lstarllstarinv u v in
  ((temp + transpose temp) - np_diag (np_diagonal temp))%M.

Definition proj_lin_Hsymmetric (n : nat) (Y : mat) (K : R) : mat :=
  let n_samples := INR n in
  let x : vec := fun i => np_sum_axis1 n Y i - 1 in
  let y := np_trace n Y - K in
  let invx : vec :=
    fun i => (x i - (np_sum n x + y) / (2 * n_samples)) / (n_samples - 1) in
  let invy := (y - (np_sum n x + y) / (2 * n_samples)) / (n_samples - 1) in
  (Y - operator_lstarllstarinv_sym invx invy)%M.

(** The divisors of the closed-form solves, in the order the divisions are
    written in the source.  [n_samples] is a Python integer, so [n - 1] is
    [-1] when [n = 0]. *)
Definition Hrows_divisors (n : nat) : list R :=
  let n_samples := INR n in
  [n_samples ^ 2 - n_samples; n_samples; n_samples - 1; n_samples].

Definition Hsymmetric_divisors (n : nat) : list R :=
  let n_samples := INR n in
  [2 * n_samples; n_samples - 1; 2 * n_samples; n_samples - 1].

(** ** The entrywise projector *)

(** [x[x < thresh] = 0; return x].  The array is changed in place and
    handed back; the solver passes a fresh temporary, so nothing else sees
    the change.  The default [thresh=0] is written out at the call. *)
Definition proj_positive (x : mat) (thresh : R) : mat :=
  fun i j => if Rlt_dec (x i j) thresh then 0 else x i j.

(** ** The eigen-solver

    [scipy.linalg.eigh] is a LAPACK binding that lives outside the repository,
    so it is a parameter of the embedding: one field per call form used in
    the source.  A call with [eigvals=(lo, hi)] returns [hi + 1 - lo]
    eigenvalues and as many eigenvectors, stored as the columns of an
    [n x (hi + 1 - lo)] array. *)

Record eigh_solver := {
  eigh_vals : nat -> mat -> vec;
  eigh_range : nat -> mat -> nat -> nat -> vec * mat;
  eigh_full : nat -> mat -> vec * mat
}.

(** [A.dot(B)] with [m] the number of columns of [A]. *)
Definition np_dot (m : nat) (A B : mat) : mat :=
  fun i j => np_sum m (fun k => A i k * B k j).

(** [v.dot(np.diag(eig_vals)).dot(v.T)] for [m] eigenpairs. *)
Definition reconstruct (m : nat) (eig_vals : vec) (v : mat) : mat :=
  np_dot m (np_dot m v (np_diag eig_vals)) (transpose v).

(** What the documentation of [eigh] promises in exact arithmetic:
    eigenvalues in ascending order, orthonormal eigenvectors as columns,
    and [A = v diag(w) v^T]. *)
Definition ascending (n : nat) (w : vec) : Prop :=
  forall i j, (i <= j)%nat -> (j < n)%nat -> w i <= w j.

Definition orthonormal (n : nat) (v : mat) : Prop :=
  forall a b, (a < n)%nat -> (b < n)%nat ->
    np_sum n (fun i => v i a * v i b) = if Nat.eqb a b then 1 else 0.

Definition eig_decomp (n : nat) (A : mat) (w : vec) (v : mat) : Prop :=
  ascending n w /\ orthonormal n v /\ mat_eq n A (reconstruct n w v).

Definition eigh_range_spec (n : nat) (A : mat) (lo hi : nat)
    (r : vec * mat) : Prop :=
  exists w v, eig_decomp n A w v /\
    (forall k, (k < hi + 1 - lo)%nat -> fst r k = w (lo + k)%nat) /\
    (forall i k, (i < n)%nat -> (k < hi + 1 - lo)%nat ->
       snd r i k = v i (lo + k)%nat).

Definition eigh_correct_at (E : eigh_solver) (n : nat) (A : mat) : Prop :=
  (exists v, eig_decomp n A (eigh_vals E n A) v) /\
  (forall lo hi, (lo <= hi)%nat -> (hi < n)%nat ->
     eigh_range_spec n A lo hi (eigh_range E n A lo hi)) /\
  eig_decomp n A (fst (eigh_full E n A)) (snd (eigh_full E n A)).

Definition eigh_correct (E : eigh_solver) (n : nat) : Prop :=
  forall A, symmetric n A -> eigh_correct_at E n A.

(** ** The semi-definite projector *)

(** [np.sum(eig_vals < 0)]. *)
Fixpoint count_negative (n : nat) (eig_vals : vec) : nat :=
  match n with
  | O => O
  | S k => (count_negative k eig_vals
            + if Rlt_dec (eig_vals k) 0 then 1 else 0)%nat
  end.

Definition proj_Snp_imp (E : eigh_solver) (n : nat) (Y : mat) : mat :=
  let n_samples := n in
  let eig_vals := eigh_vals E n Y in
  let n_val_neg := count_negative n eig_vals in
  if Nat.eqb n_val_neg 0 then Y
  else if Nat.eqb n_val_neg n_samples then np_zeros
  else if Nat.ltb n_val_neg (n_samples - n_val_neg) then
    let (eig_vals, v) :=
      eigh_range E n (- Y)%M (n_samples - n_val_neg) (n_samples - 1) in
    (Y + reconstruct n_val_neg eig_vals v)%M
  else
    let (eig_vals, v) := eigh_range E n Y n_val_neg (n_samples - 1) in
    reconstruct (n_samples - n_val_neg) eig_vals v.

(** The reference the spec compares with: a full eigendecomposition, every
    negative eigenvalue replaced by zero, and the matrix rebuilt. *)
Definition proj_Snp_naive (E : eigh_solver) (n : nat) (Y : mat) : mat :=
  let (eig_vals, v) := eigh_full E n Y in
  reconstruct n (fun k => Rmax (eig_vals k) 0) v.

(** [x^T A x]. *)
Definition quad (n : nat) (A : mat) (x : vec) : R :=
  np_sum n (fun i => np_sum n (fun j => x i * A i j * x j)).

Definition psd (n : nat) (A : mat) : Prop :=
  forall x, 0 <= quad n A x.

(** The count [n_val_neg] that [proj_Snp_imp] branches on. *)
Definition n_val_neg (E : eigh_solver) (n : nat) (Y : mat) : nat :=
  count_negative n (eigh_vals E n Y).

(** The two rebuilding branches of [proj_Snp_imp], each under a name, so
    that both can be evaluated on one input. *)
Definition branch_add_back (E : eigh_solver) (n : nat) (Y : mat)
    (n_val_neg : nat) : mat :=
  let (eig_vals, v) := eigh_range E n (- Y)%M (n - n_val_neg) (n - 1) in
  (Y + reconstruct n_val_neg eig_vals v)%M.

Definition branch_rebuild (E : eigh_solver) (n : nat) (Y : mat)
    (n_val_neg : nat) : mat :=
  let (eig_vals, v) := eigh_range E n Y n_val_neg (n - 1) in
  reconstruct (n - n_val_neg) eig_vals v.

(** ** The solver *)

Definition n_max : nat := 3000.
Definition epsilon : R := 1 / 10 ^ 8.

Definition is_primal_high (n : nat) (res_primal : R) (X Y Z : mat) : bool :=
  if Rlt_dec
       (epsilon * Rmax (Rmax (np_linalg_norm n X) (np_linalg_norm n Y))
                       (np_linalg_norm n Z))
       res_primal
  then true else false.

Definition is_dual_high (n : nat) (res_dual : R) (Y Z : mat) : bool :=
  if Rlt_dec
       (epsilon * (sqrt (INR n) + np_linalg_norm n Y + np_linalg_norm n Z))
       res_dual
  then true else false.

(** [np.linalg.norm((A, B, C))]: the three arrays are stacked into one of
    shape [(3, n, n)], whose norm is the root of the sum of all squares. *)
Definition np_linalg_norm3 (n : nat) (A B C : mat) : R :=
  sqrt (sumsq n A + sumsq n B + sumsq n C).

(** The local variables of [pecok_admm].  [res_primal] and [res_dual] are
    bound by the first pass through the loop body and not before. *)
Record admm_state := {
  st_X : mat; st_Y : mat; st_Z : mat;
  st_U : mat; st_V : mat; st_W : mat;
  st_Xbar : mat;
  st_n_iter : nat;
  st_res_primal : option R;
  st_res_dual : option R
}.

Definition admm_init : admm_state :=
  let X := np_identity in
  let Y := np_identity in
  let Z := np_identity in
  {| st_X := X; st_Y := Y; st_Z := Z;
     st_U := np_zeros; st_V := np_zeros; st_W := np_zeros;
     st_Xbar := ((X + Y + Z) / 3)%M;
     st_n_iter := 0;
     st_res_primal := None; st_res_dual := None |}.

(** One pass through the body of the [while] loop, up to the computation of
    the two residuals. *)
Definition admm_body (E : eigh_solver) (n : nat) (relational_data : mat)
    (K rho : R) (s : admm_state) : admm_state :=
  let n_iter := (st_n_iter s + 1)%nat in
  let oldXbar := st_Xbar s in
  let X := proj_lin_Hsymmetric n
             (st_Xbar s - st_U s + relational_data / rho)%M K in
  let Y := proj_positive (st_Xbar s - st_V s)%M 0 in
  let Z := proj_Snp_imp E n (st_Xbar s - st_W s)%M in
  let Xbar := ((X + Y + Z) / 3)%M in
  let U := (st_U s + X - Xbar)%M in
  let V := (st_V s + Y - Xbar)%M in
  let W := (st_W s + Z - Xbar)%M in
  let res_dual := rho * np_linalg_norm n (Xbar - oldXbar)%M in
  let res_primal :=
    np_linalg_norm3 n (X - Xbar)%M (Z - Xbar)%M (Y - Xbar)%M in
  {| st_X := X; st_Y := Y; st_Z := Z;
     st_U := U; st_V := V; st_W := W;
     st_Xbar := Xbar;
     st_n_iter := n_iter;
     st_res_primal := Some res_primal; st_res_dual := Some res_dual |}.

(** The test that guards [break], read on the state the body leaves: the
    loop goes on when it is [true]. *)
Definition residuals_high (n : nat) (s : admm_state) : bool :=
  match st_res_primal s, st_res_dual s with
  | Some res_primal, Some res_dual =>
      is_primal_high n res_primal (st_X s) (st_Y s) (st_Z s)
      || is_dual_high n res_dual (st_Y s) (st_Z s)
  | _, _ => false
  end.

(** [while n_iter < n_iter_max: ...; if not (...): break].  [n_iter] starts
    at [0] and grows by one per pass, so the loop is a recursion on the
    passes that remain, [n_iter_max - n_iter]. *)
Fixpoint admm_loop (E : eigh_solver) (n : nat) (relational_data : mat)
    (K rho : R) (remaining : nat) (s : admm_state) : admm_state :=
  match remaining with
  | O => s
  | S r =>
      let s' := admm_body E n relational_data K rho s in
      if residuals_high n s' then admm_loop E n relational_data K rho r s'
      else s'
  end.

(** What a call of [pecok_admm] ends with. *)
Inductive outcome :=
  | Returns (Z : mat)
  | UnboundLocalError.

(** After the loop the function prints [n_iter], [rho], [res_primal] and
    [res_dual], then returns [Z]; reading a local that was never bound
    raises. *)
Definition pecok_admm (E : eigh_solver) (n : nat) (relational_data : mat)
    (K : R) (n_iter_max : nat) (rho : R) : outcome :=
  let relational_data :=
    (relational_data / np_linalg_norm n relational_data)%M in
  let s := admm_loop E n relational_data K rho n_iter_max admm_init in
  match st_res_primal s, st_res_dual s with
  | Some _, Some _ => Returns (st_Z s)
  | _, _ => UnboundLocalError
  end.

(** The final state itself, for the claims that speak of the residuals and
    of the iteration count.  The quotient by the norm on line 74 and the
    quotient by [rho] in the body are quotients of real numbers: on an input
    of norm zero, or with [rho = 0], the code's arrays hold [nan] and this
    state is not the code's ([pecok_admm_state_checked] below is [None]
    there). *)
Definition pecok_admm_state (E : eigh_solver) (n : nat) (relational_data : mat)
    (K : R) (n_iter_max : nat) (rho : R) : admm_state :=
  admm_loop E n (relational_data / np_linalg_norm n relational_data)%M
            K rho n_iter_max admm_init.

(** The call with the default arguments [n_iter_max=n_max, rho=1.0]. *)
Definition pecok_admm_default (E : eigh_solver) (n : nat)
    (relational_data : mat) (K : R) : outcome :=
  pecok_admm E n relational_data K n_max 1.

(** ** The constraint set of the affine projector *)

(** Every row sums to [1] and the trace is [K]. *)
Definition feasible (n : nat) (K : R) (A : mat) : Prop :=
  (forall i, (i < n)%nat -> np_sum_axis1 n A i = 1) /\ np_trace n A = K.

(** The norm that reads a symmetric matrix through its upper triangle: each
    unordered pair of indices is counted once. *)
Definition sumsq_upper (n : nat) (M : mat) : R :=
  np_sum n (fun i =>
    np_sum n (fun j => if (i <=? j)%nat then M i j * M i j else 0)).

Definition norm_upper (n : nat) (M : mat) : R :=
  sqrt (sumsq_upper n M).

(** The Frobenius inner product, of which [sumsq] is the square norm. *)
Definition inner (n : nat) (A B : mat) : R :=
  np_sum n (fun i => np_sum n (fun j => A i j * B i j)).

(** The three dual variables sum to the zero matrix. *)
Definition duals_cancel (s : admm_state) : Prop :=
  forall i j, st_U s i j + st_V s i j + st_W s i j = 0.

(** The residuals are bound: the loop body ran at least once. *)
Definition residuals_bound (s : admm_state) : Prop :=
  st_res_primal s <> None /\ st_res_dual s <> None.

(** ** Spectral sums

    Column [k] of an array, the dot product of two vectors, a matrix applied
    to a vector, and the matrix [sum_k c_k v_k v_k^T] built from the columns
    [v_k] of [v]. *)

Definition col (v : mat) (k : nat) : vec := fun i => v i k.

Definition dotv (n : nat) (x y : vec) : R :=
  np_sum n (fun i => x i * y i).

Definition mulv (n : nat) (A : mat) (x : vec) : vec :=
  fun i => np_sum n (fun j => A i j * x j).

Definition spectral (n : nat) (c : vec) (v : mat) : mat :=
  fun i j => np_sum n (fun k => c k * v i k * v j k).

Definition pos_part (w : vec) : vec := fun k => Rmax (w k) 0.
Definition neg_part (w : vec) : vec := fun k => Rmax (- w k) 0.

(** The indicator of the negative entries, whose sum is [count_negative]. *)
Definition is_negative (w : vec) : vec :=
  fun k => if Rlt_dec (w k) 0 then 1 else 0.

(** Every matrix of the state is symmetric. *)
Definition state_symmetric (n : nat) (s : admm_state) : Prop :=
  symmetric n (st_X s) /\ symmetric n (st_Y s) /\ symmetric n (st_Z s) /\
  symmetric n (st_U s) /\ symmetric n (st_V s) /\ symmetric n (st_W s) /\
  symmetric n (st_Xbar s).

(** ** Division by zero made visible

    numpy does not raise on a zero divisor: the quotient is [inf] or [nan]
    and the computation goes on.  To speak of the divisions that the closed
    forms perform, each projector is written a second time with every
    division checked; the only difference with the definitions above is the
    division operator. *)

Definition checked_div (a b : R) : option R :=
  if Req_dec_T b 0 then None else Some (a / b).

Definition checked_vdiv (x : vec) (b : R) : option vec :=
  if Req_dec_T b 0 then None else Some (fun i => x i / b).

Notation "x <- c ;; k" :=
  (match c with Some x => k | None => None end)
  (at level 61, c at next level, right associativity).

Definition proj_lin_Hrows_checked (n : nat) (Y : mat) (K : R) : option mat :=
  let n_samples := INR n in
  let x : vec := fun i => np_sum_axis1 n Y i - 1 in
  let y := np_trace n Y - K in
  q <- checked_div (np_sum n x - y * n_samples) (n_samples ^ 2 - n_samples) ;;
  invx <- checked_vdiv (fun i => x i + q) n_samples ;;
  p <- checked_div (y - np_sum n x) (n_samples - 1) ;;
  invy <- checked_div (p + y) n_samples ;;
  Some (Y - operator_lstarllstarinv invx invy)%M.

Definition proj_lin_Hsymmetric_checked (n : nat) (Y : mat) (K : R)
    : option mat :=
  let n_samples := INR n in
  let x : vec := fun i => np_sum_axis1 n Y i - 1 in
  let y := np_trace n Y - K in
  q <- checked_div (np_sum n x + y) (2 * n_samples) ;;
  invx <- checked_vdiv (fun i => x i - q) (n_samples - 1) ;;
  q' <- checked_div (np_sum n x + y) (2 * n_samples) ;;
  invy <- checked_div (y - q') (n_samples - 1) ;;
  Some (Y - operator_lstarllstarinv_sym invx invy)%M.

(** The solver with its divisions checked: by the norm of the input on
    line 74, by [rho] on line 85, and those of [proj_lin_Hsymmetric].  The
    divisor of the mean is the literal [3].  [None] stands for a run in
    which a quotient of the code is [inf] or [nan]. *)
Definition checked_mdiv (A : mat) (b : R) : option mat :=
  if Req_dec_T b 0 then None else Some (A / b)%M.

Definition admm_body_checked (E : eigh_solver) (n : nat)
    (relational_data : mat) (K rho : R) (s : admm_state)
    : option admm_state :=
  q <- checked_mdiv relational_data rho ;;
  X <- proj_lin_Hsymmetric_checked n (st_Xbar s - st_U s + q)%M K ;;
  Some (admm_body E n relational_data K rho s).

Fixpoint admm_loop_checked (E : eigh_solver) (n : nat)
    (relational_data : mat) (K rho : R) (remaining : nat) (s : admm_state)
    : option admm_state :=
  match remaining with
  | O => Some s
  | S r =>
      s' <- admm_body_checked E n relational_data K rho s ;;
      if residuals_high n s'
      then admm_loop_checked E n relational_data K rho r s'
      else Some s'
  end.

Definition pecok_admm_state_checked (E : eigh_solver) (n : nat)
    (relational_data : mat) (K : R) (n_iter_max : nat) (rho : R)
    : option admm_state :=
  relational_data <-
    checked_mdiv relational_data (np_linalg_norm n relational_data) ;;
  admm_loop_checked E n relational_data K rho n_iter_max admm_init.

(** ** An eigen-solver for 2 x 2 matrices

    The closed form for a symmetric [[a, b], [b, c]]: with [m = (a + c) / 2],
    [d = (a - c) / 2] and [r = sqrt (d^2 + b^2)] the eigenvalues are [m - r]
    and [m + r], and the eigenvectors are [(-sin t, cos t)] and
    [(cos t, sin t)] where [cos 2t = d / r] and [sin 2t = b / r].  It is the
    instance at which the statements that assume a correct solver are
    evaluated. *)

Definition eigh2_mean (M : mat) : R := (M O O + M 1%nat 1%nat) / 2.
Definition eigh2_half_gap (M : mat) : R := (M O O - M 1%nat 1%nat) / 2.

Definition eigh2_radius (M : mat) : R :=
  sqrt (eigh2_half_gap M * eigh2_half_gap M + M O 1%nat * M O 1%nat).

Definition eigh2_w (M : mat) : vec :=
  fun k =>
    match k with
    | O => eigh2_mean M - eigh2_radius M
    | _ => eigh2_mean M + eigh2_radius M
    end.

Definition eigh2_cos (M : mat) : R :=
  if Req_dec_T (eigh2_radius M) 0 then 1
  else sqrt ((1 + eigh2_half_gap M / eigh2_radius M) / 2).

Definition eigh2_sin (M : mat) : R :=
  if Req_dec_T (eigh2_radius M) 0 then 0
  else (if Rlt_dec (M O 1%nat) 0 then -1 else 1)
       * sqrt ((1 - eigh2_half_gap M / eigh2_radius M) / 2).

Definition eigh2_v (M : mat) : mat :=
  fun i k =>
    match i, k with
    | O, O => - eigh2_sin M
    | O, _ => eigh2_cos M
    | _, O => eigh2_cos M
    | _, _ => eigh2_sin M
    end.

Definition eigh2 : eigh_solver := {|
  eigh_vals := fun _ M => eigh2_w M;
  eigh_range := fun _ M lo _ =>
    (fun k => eigh2_w M (lo + k)%nat, fun i k => eigh2_v M i (lo + k)%nat);
  eigh_full := fun _ M => (eigh2_w M, eigh2_v M)
|}.

(** ** Concrete inputs *)

(** The constant matrix with every entry [1/2]. *)
Definition half_matrix : mat := fun _ _ => 1 / 2.

(** The symmetric 3 x 3 matrix [diag(1, 0, 0)]. *)
Definition Y_diag100 : mat :=
  fun i j => match i, j with O, O => 1 | _, _ => 0 end.

(** A symmetric matrix with unit row sums and trace [1]. *)
Definition A_closer : mat :=
  fun i j =>
    match i, j with
    | 0%nat, 0%nat => 5 / 9
    | 1%nat, 2%nat => 5 / 9
    | 2%nat, 1%nat => 5 / 9
    | _, _ => 2 / 9
    end.

(** What [proj_lin_Hsymmetric] returns on [diag(1, 0, 0)] with [K = 1]. *)
Definition P_diag100 : mat :=
  fun i j =>
    match i, j with
    | 0%nat, 0%nat => 2 / 3
    | 1%nat, 2%nat => 2 / 3
    | 2%nat, 1%nat => 2 / 3
    | _, _ => 1 / 6
    end.

(** The symmetric 2 x 2 matrix [[0, 1], [1, 0]], with eigenvalues [-1]
    and [1]. *)
Definition Y_swap : mat :=
  fun i j => if Nat.eqb i j then 0 else 1.

(** A 2 x 2 array of the form [[a, b], [b, a]]. *)
Definition circ (M : mat) (a b : R) : Prop :=
  M O O = a /\ M 1%nat 1%nat = a /\ M O 1%nat = b /\ M 1%nat O = b.

(** A state all of whose matrices have this form, each given by its pair
    [(a, b)]. *)
Definition state_circ (s : admm_state) (X Y Z B U V W : R * R) : Prop :=
  circ (st_X s) (fst X) (snd X) /\
  circ (st_Y s) (fst Y) (snd Y) /\
  circ (st_Z s) (fst Z) (snd Z) /\
  circ (st_Xbar s) (fst B) (snd B) /\
  circ (st_U s) (fst U) (snd U) /\
  circ (st_V s) (fst V) (snd V) /\
  circ (st_W s) (fst W) (snd W).

(** A run on the 2 x 2 identity with [K = 1] and [rho = 1]: the normalised
    input and the states after one, two, three and four passes. *)
Definition run_Rn : mat := (np_identity / np_linalg_norm 2 np_identity)%M.

Definition run_s1 : admm_state := admm_body eigh2 2 run_Rn 1 1 admm_init.

Definition run_s2 : admm_state := admm_body eigh2 2 run_Rn 1 1 run_s1.

Definition run_s3 : admm_state := admm_body eigh2 2 run_Rn 1 1 run_s2.

Definition run_s4 : admm_state := admm_body eigh2 2 run_Rn 1 1 run_s3.

(** ** Further notions for the properties beyond the spec *)

(** The inner product of the upper triangle: each unordered pair of indices
    is counted once.  [sumsq_upper] is its square norm. *)
Definition inner_upper (n : nat) (A B : mat) : R :=
  np_sum n (fun i =>
    np_sum n (fun j => if (i <=? j)%nat then A i j * B i j else 0)).

(** [c * A] for a scalar [c]. *)
Definition mscale (c : R) (A : mat) : mat := fun i j => c * A i j.

(** [np.sum(A, 0)]: the vector of column sums. *)
Definition np_sum_axis0 (n : nat) (A : mat) : vec :=
  fun j => np_sum n (fun i => A i j).

(** The 2 x 2 matrix [[K/2, 1 - K/2], [1 - K/2, K/2]]. *)
Definition only_point (K : R) : mat :=
  fun i j => if Nat.eqb i j then K / 2 else 1 - K / 2.

(** A solver that answers like [eigh2] when asked for at most [n / 2]
    eigenpairs, and with zeros otherwise. *)
Definition eigh2_lazy : eigh_solver := {|
  eigh_vals := fun _ M => eigh2_w M;
  eigh_range := fun n M lo hi =>
    if (2 * (hi + 1 - lo) <=? n)%nat
    then (fun k => eigh2_w M (lo + k)%nat, fun i k => eigh2_v M i (lo + k)%nat)
    else (fun _ => 0, np_zeros);
  eigh_full := fun _ _ => (fun _ => 0, np_zeros)
|}.

(** ** Tactics *)

(** Case analysis on two indices below [3]. *)
Ltac below_3 i j :=
  destruct i as [|[|[|i]]]; [| | |lia];
  (destruct j as [|[|[|j]]]; [| | |lia]).

(** ** Sums *)

Lemma np_sum_ext n (f g : vec) :
  (forall i, (i < n)%nat -> f i = g i) -> np_sum n f = np_sum n g.
Proof.
  induction n as [|n IH]; intros H; simpl; [reflexivity|].
  rewrite IH by (intros; apply H; lia).
  rewrite H by lia. reflexivity.
Qed.

Lemma np_sum_plus n (f g : vec) :
  np_sum n (fun i => f i + g i) = np_sum n f + np_sum n g.
Proof. induction n as [|n IH]; simpl; [|rewrite IH]; lra. Qed.

Lemma np_sum_minus n (f g : vec) :
  np_sum n (fun i => f i - g i) = np_sum n f - np_sum n g.
Proof. induction n as [|n IH]; simpl; [|rewrite IH]; lra. Qed.

Lemma np_sum_scal n c (f : vec) :
  np_sum n (fun i => c * f i) = c * np_sum n f.
Proof. induction n as [|n IH]; simpl; [|rewrite IH]; lra. Qed.

Lemma np_sum_scal_each n (u : vec) (f : nat -> nat -> R) :
  np_sum n (fun j => np_sum n (fun i => u j * f j i)) =
  np_sum n (fun j => u j * np_sum n (f j)).
Proof. apply np_sum_ext; intros j _. apply np_sum_scal. Qed.

Lemma np_sum_const n c : np_sum n (fun _ => c) = INR n * c.
Proof.
  induction n as [|n IH]; [simpl; lra|].
  rewrite S_INR. simpl. rewrite IH. lra.
Qed.

Lemma np_sum_zero n (f : vec) :
  (forall i, (i < n)%nat -> f i = 0) -> np_sum n f = 0.
Proof.
  intros H. rewrite (np_sum_ext n f (fun _ => 0)) by exact H.
  rewrite np_sum_const. lra.
Qed.

Lemma np_sum_delta n k (a : vec) :
  (k < n)%nat ->
  np_sum n (fun j => if Nat.eqb k j then a j else 0) = a k.
Proof.
  induction n as [|n IH]; intros Hk; [lia|]. simpl.
  destruct (Nat.eqb_spec k n) as [->|Hne].
  - rewrite np_sum_zero; [lra|].
    intros i Hi. destruct (Nat.eqb_spec n i); [lia|reflexivity].
  - rewrite IH by lia. lra.
Qed.

Lemma np_sum_delta_r n k (a : vec) :
  (k < n)%nat ->
  np_sum n (fun j => if Nat.eqb j k then a j else 0) = a k.
Proof.
  intros Hk. rewrite <- (np_sum_delta n k a Hk).
  apply np_sum_ext. intros i _. rewrite Nat.eqb_sym. reflexivity.
Qed.

Lemma np_sum_swap n m (f : nat -> nat -> R) :
  np_sum n (fun i => np_sum m (fun j => f i j)) =
  np_sum m (fun j => np_sum n (fun i => f i j)).
Proof.
  induction n as [|n IH]; simpl.
  - symmetry. apply np_sum_zero. reflexivity.
  - rewrite IH, <- np_sum_plus. reflexivity.
Qed.

Lemma np_sum_nonneg n (f : vec) :
  (forall i, (i < n)%nat -> 0 <= f i) -> 0 <= np_sum n f.
Proof.
  induction n as [|n IH]; intros H; simpl; [lra|].
  assert (0 <= np_sum n f) by (apply IH; intros; apply H; lia).
  assert (0 <= f n) by (apply H; lia). lra.
Qed.

Lemma np_sum_le n (f g : vec) :
  (forall i, (i < n)%nat -> f i <= g i) -> np_sum n f <= np_sum n g.
Proof.
  induction n as [|n IH]; intros H; simpl; [lra|].
  assert (np_sum n f <= np_sum n g) by (apply IH; intros; apply H; lia).
  assert (f n <= g n) by (apply H; lia). lra.
Qed.

Lemma np_sum_nonneg_zero n (f : vec) :
  (forall i, (i < n)%nat -> 0 <= f i) -> np_sum n f = 0 ->
  forall i, (i < n)%nat -> f i = 0.
Proof.
  induction n as [|n IH]; intros H H0 i Hi; [lia|]. simpl in H0.
  assert (0 <= np_sum n f) by (apply np_sum_nonneg; intros; apply H; lia).
  assert (0 <= f n) by (apply H; lia).
  destruct (Nat.eq_dec i n) as [->|Hne]; [lra|].
  apply IH; [intros; apply H; lia|lra|lia].
Qed.

(** ** The entrywise projector *)

Lemma proj_positive_below (x : mat) (thresh : R) i j :
  x i j < thresh -> proj_positive x thresh i j = 0.
Proof.
  intros H. unfold proj_positive.
  destruct (Rlt_dec (x i j) thresh); [reflexivity|contradiction].
Qed.

Lemma proj_positive_above (x : mat) (thresh : R) i j :
  thresh <= x i j -> proj_positive x thresh i j = x i j.
Proof.
  intros H. unfold proj_positive.
  destruct (Rlt_dec (x i j) thresh); [lra|reflexivity].
Qed.

Lemma proj_positive_symmetric n (x : mat) :
  symmetric n x -> symmetric n (proj_positive x 0).
Proof.
  intros H i j Hi Hj. unfold proj_positive.
  rewrite (H i j Hi Hj). reflexivity.
Qed.

(** C7, as amended.  [proj_positive(x, thresh)] replaces every entry below
    [thresh] by [0] and leaves the entries at or above [thresh] as they are.
    Each entry of the output is therefore [0] or at least [thresh]: the
    output has no entry below [thresh] when [thresh <= 0], and with the
    default threshold it has no negative entry. *)
Theorem proj_positive_clamps (x : mat) (thresh : R) (i j : nat) :
  (x i j < thresh -> proj_positive x thresh i j = 0) /\
  (thresh <= x i j -> proj_positive x thresh i j = x i j) /\
  (proj_positive x thresh i j = 0
   \/ thresh <= proj_positive x thresh i j) /\
  (thresh <= 0 -> thresh <= proj_positive x thresh i j) /\
  0 <= proj_positive x 0 i j.
Proof.
  split; [apply proj_positive_below|].
  split; [apply proj_positive_above|].
  unfold proj_positive.
  repeat split.
  - destruct (Rlt_dec (x i j) thresh); [left; reflexivity|right; lra].
  - intros Ht. destruct (Rlt_dec (x i j) thresh); lra.
  - destruct (Rlt_dec (x i j) 0); lra.
Qed.

Lemma proj_positive_clamps_witness :
  proj_positive half_matrix 1 O O = 0 /\
  proj_positive half_matrix (1 / 4) O O = 1 / 2 /\
  -1 <= proj_positive half_matrix (-1) O O.
Proof.
  destruct (proj_positive_clamps half_matrix 1 O O) as (H1 & _).
  destruct (proj_positive_clamps half_matrix (1 / 4) O O) as (_ & H2 & _).
  destruct (proj_positive_clamps half_matrix (-1) O O) as (_ & _ & _ & H3 & _).
  split; [apply H1; unfold half_matrix; lra|].
  split; [apply H2; unfold half_matrix; lra|].
  apply H3; lra.
Defined.

(** C7, the claim as written fails: with threshold [1] the entry [1/2] is
    replaced by [0], and [0] is below the threshold. *)
Lemma proj_positive_entry_below_thresh :
  proj_positive half_matrix 1 O O = 0 /\
  proj_positive half_matrix 1 O O < 1.
Proof.
  assert (H : proj_positive half_matrix 1 O O = 0).
  { apply proj_positive_below. unfold half_matrix. lra. }
  rewrite H. split; [reflexivity|lra].
Qed.

(** ** The divisors of the affine projector *)

Lemma INR_ge_2 n : (2 <= n)%nat -> 2 <= INR n.
Proof. intros H. apply le_INR in H. simpl in H. lra. Qed.

Lemma INR_lt_2 n : (n < 2)%nat -> INR n = 0 \/ INR n = 1.
Proof.
  intros H. destruct n as [|[|n]]; [left|right|lia]; reflexivity.
Qed.

Lemma checked_div_nonzero a b : b <> 0 -> checked_div a b = Some (a / b).
Proof.
  intros H. unfold checked_div. destruct (Req_dec_T b 0); [contradiction|reflexivity].
Qed.

Lemma checked_vdiv_nonzero x b :
  b <> 0 -> checked_vdiv x b = Some (fun i => x i / b).
Proof.
  intros H. unfold checked_vdiv. destruct (Req_dec_T b 0); [contradiction|reflexivity].
Qed.

Lemma checked_div_zero a b : b = 0 -> checked_div a b = None.
Proof.
  intros H. unfold checked_div. destruct (Req_dec_T b 0); [reflexivity|contradiction].
Qed.

Lemma checked_vdiv_zero x b : b = 0 -> checked_vdiv x b = None.
Proof.
  intros H. unfold checked_vdiv. destruct (Req_dec_T b 0); [reflexivity|contradiction].
Qed.

Lemma Hrows_checked_ge_2 n Y K :
  (2 <= n)%nat -> proj_lin_Hrows_checked n Y K = Some (proj_lin_Hrows n Y K).
Proof.
  intros Hn. apply INR_ge_2 in Hn. unfold proj_lin_Hrows_checked.
  rewrite checked_div_nonzero by nra.
  rewrite checked_vdiv_nonzero by lra.
  rewrite checked_div_nonzero by lra.
  rewrite checked_div_nonzero by lra.
  reflexivity.
Qed.

Lemma Hsymmetric_checked_ge_2 n Y K :
  (2 <= n)%nat ->
  proj_lin_Hsymmetric_checked n Y K = Some (proj_lin_Hsymmetric n Y K).
Proof.
  intros Hn. apply INR_ge_2 in Hn. unfold proj_lin_Hsymmetric_checked.
  rewrite checked_div_nonzero by lra.
  rewrite checked_vdiv_nonzero by lra.
  rewrite checked_div_nonzero by lra.
  reflexivity.
Qed.

Lemma Hrows_checked_lt_2 n Y K :
  (n < 2)%nat -> proj_lin_Hrows_checked n Y K = None.
Proof.
  intros Hn. unfold proj_lin_Hrows_checked.
  rewrite checked_div_zero; [reflexivity|].
  destruct (INR_lt_2 n Hn) as [-> | ->]; lra.
Qed.

Lemma Hsymmetric_checked_lt_2 n Y K :
  (n < 2)%nat -> proj_lin_Hsymmetric_checked n Y K = None.
Proof.
  intros Hn. unfold proj_lin_Hsymmetric_checked.
  destruct (INR_lt_2 n Hn) as [H | H].
  - rewrite checked_div_zero; [reflexivity|rewrite H; lra].
  - rewrite checked_div_nonzero by (rewrite H; lra).
    rewrite checked_vdiv_zero; [reflexivity|rewrite H; lra].
Qed.

Lemma Forall_nonzero_4 (a b c d : R) :
  a <> 0 -> b <> 0 -> c <> 0 -> d <> 0 ->
  Forall (fun r => r <> 0) [a; b; c; d].
Proof. intros; repeat constructor; assumption. Qed.

(** C8.  For [n >= 2] every divisor of the two closed forms is non-zero and
    the checked evaluation returns what the functions return; for [n < 2]
    both closed forms divide by zero.  The functions themselves have no
    error path: they return an array for every [n]. *)
Theorem affine_projector_divisors (n : nat) (Y : mat) (K : R) :
  ((2 <= n)%nat ->
     Forall (fun d => d <> 0) (Hrows_divisors n) /\
     Forall (fun d => d <> 0) (Hsymmetric_divisors n) /\
     proj_lin_Hrows_checked n Y K = Some (proj_lin_Hrows n Y K) /\
     proj_lin_Hsymmetric_checked n Y K = Some (proj_lin_Hsymmetric n Y K)) /\
  ((n < 2)%nat ->
     Exists (fun d => d = 0) (Hrows_divisors n) /\
     Exists (fun d => d = 0) (Hsymmetric_divisors n) /\
     proj_lin_Hrows_checked n Y K = None /\
     proj_lin_Hsymmetric_checked n Y K = None).
Proof.
  split; intros Hn.
  - pose proof (INR_ge_2 n Hn) as H2.
    split; [apply Forall_nonzero_4; nra|].
    split; [apply Forall_nonzero_4; lra|].
    split; [apply Hrows_checked_ge_2|apply Hsymmetric_checked_ge_2]; exact Hn.
  - split; [|split; [|split]].
    + apply Exists_cons_hd. destruct (INR_lt_2 n Hn) as [-> | ->]; lra.
    + destruct (INR_lt_2 n Hn) as [H | H].
      * apply Exists_cons_hd. rewrite H. lra.
      * apply Exists_cons_tl, Exists_cons_hd. rewrite H. lra.
    + apply Hrows_checked_lt_2; exact Hn.
    + apply Hsymmetric_checked_lt_2; exact Hn.
Qed.

Lemma affine_projector_divisors_witness :
  proj_lin_Hrows_checked 2 np_identity 1 = Some (proj_lin_Hrows 2 np_identity 1) /\
  proj_lin_Hsymmetric_checked 1 np_identity 1 = None.
Proof.
  split.
  - apply (affine_projector_divisors 2 np_identity 1). lia.
  - apply (affine_projector_divisors 1 np_identity 1). lia.
Defined.

(** ** The Frobenius inner product *)

Lemma inner_ext n (A A' B B' : mat) :
  mat_eq n A A' -> mat_eq n B B' -> inner n A B = inner n A' B'.
Proof.
  intros HA HB. unfold inner.
  apply np_sum_ext; intros i Hi. apply np_sum_ext; intros j Hj.
  rewrite HA, HB by assumption. reflexivity.
Qed.

Lemma sumsq_inner n A : sumsq n A = inner n A A.
Proof. reflexivity. Qed.

Lemma sumsq_ext n (A B : mat) : mat_eq n A B -> sumsq n A = sumsq n B.
Proof. intros H. rewrite !sumsq_inner. apply inner_ext; assumption. Qed.

Lemma sumsq_nonneg n A : 0 <= sumsq n A.
Proof.
  unfold sumsq. apply np_sum_nonneg; intros i _.
  apply np_sum_nonneg; intros j _. nra.
Qed.

Lemma sumsq_zero n A : sumsq n A = 0 -> mat_eq n A np_zeros.
Proof.
  intros H i j Hi Hj. unfold np_zeros.
  assert (Hrow : np_sum n (fun j => A i j * A i j) = 0).
  { apply (np_sum_nonneg_zero n
             (fun i => np_sum n (fun j => A i j * A i j))); try assumption.
    intros k _. apply np_sum_nonneg; intros l _. nra. }
  assert (Hsq : A i j * A i j = 0).
  { apply (np_sum_nonneg_zero n (fun j => A i j * A i j)); try assumption.
    intros k _. nra. }
  nra.
Qed.

Lemma inner_sym n A B : inner n A B = inner n B A.
Proof.
  unfold inner. apply np_sum_ext; intros i _.
  apply np_sum_ext; intros j _. lra.
Qed.

Lemma inner_plus_l n A B C :
  inner n (A + B)%M C = inner n A C + inner n B C.
Proof.
  unfold inner, madd. rewrite <- np_sum_plus.
  apply np_sum_ext; intros i _. rewrite <- np_sum_plus.
  apply np_sum_ext; intros j _. lra.
Qed.

Lemma inner_minus_l n A B C :
  inner n (A - B)%M C = inner n A C - inner n B C.
Proof.
  unfold inner, msub. rewrite <- np_sum_minus.
  apply np_sum_ext; intros i _. rewrite <- np_sum_minus.
  apply np_sum_ext; intros j _. lra.
Qed.

Lemma inner_plus_r n A B C :
  inner n C (A + B)%M = inner n C A + inner n C B.
Proof. rewrite inner_sym, inner_plus_l, !(inner_sym n C). reflexivity. Qed.

Lemma inner_minus_r n A B C :
  inner n C (A - B)%M = inner n C A - inner n C B.
Proof. rewrite inner_sym, inner_minus_l, !(inner_sym n C). reflexivity. Qed.

Lemma sumsq_plus n A B :
  sumsq n (A + B)%M = sumsq n A + 2 * inner n A B + sumsq n B.
Proof.
  rewrite !sumsq_inner, inner_plus_l, !inner_plus_r, (inner_sym n B A). lra.
Qed.

(** Pythagoras: a feasible point reached along a direction orthogonal to
    every feasible displacement is the nearest feasible point. *)
Lemma nearest_of_orthogonal n (Y P A : mat) :
  inner n (Y - P)%M (P - A)%M = 0 -> sumsq n (Y - P)%M <= sumsq n (Y - A)%M.
Proof.
  intros H.
  rewrite (sumsq_ext n (Y - A)%M ((Y - P) + (P - A))%M).
  - rewrite sumsq_plus, H. pose proof (sumsq_nonneg n (P - A)%M). lra.
  - intros i j _ _. unfold madd, msub. lra.
Qed.

(** ** The affine projector: row sums, trace, symmetry *)

Lemma operator_entry u v i j :
  operator_lstarllstarinv u v i j = u i + (if Nat.eqb i j then v else 0).
Proof. reflexivity. Qed.

Lemma operator_sym_entry u v i j :
  operator_lstarllstarinv_sym u v i j =
  u i + u j + (if Nat.eqb i j then v - u i else 0).
Proof.
  unfold operator_lstarllstarinv_sym, operator_lstarllstarinv, madd, msub,
    transpose, np_diag, np_diagonal, repeat_reshape, np_repeat.
  rewrite (Nat.eqb_sym j i), Nat.eqb_refl.
  destruct (Nat.eqb i j); lra.
Qed.

Lemma operator_rowsum n u v i :
  (i < n)%nat ->
  np_sum n (operator_lstarllstarinv u v i) = INR n * u i + v.
Proof.
  intros Hi.
  rewrite (np_sum_ext n _ (fun j => u i + (if Nat.eqb i j then v else 0)))
    by (intros; apply operator_entry).
  rewrite np_sum_plus, np_sum_const, (np_sum_delta n i (fun _ => v) Hi).
  reflexivity.
Qed.

Lemma operator_trace n u v :
  np_trace n (operator_lstarllstarinv u v) = np_sum n u + INR n * v.
Proof.
  unfold np_trace.
  rewrite (np_sum_ext n _ (fun i => u i + v)).
  - rewrite np_sum_plus, np_sum_const. reflexivity.
  - intros i _. rewrite operator_entry, Nat.eqb_refl. reflexivity.
Qed.

Lemma operator_sym_rowsum n u v i :
  (i < n)%nat ->
  np_sum n (operator_lstarllstarinv_sym u v i) =
  (INR n - 1) * u i + np_sum n u + v.
Proof.
  intros Hi.
  rewrite (np_sum_ext n _
    (fun j => (u i + u j) + (if Nat.eqb i j then v - u i else 0)))
    by (intros; apply operator_sym_entry).
  rewrite np_sum_plus, np_sum_plus, np_sum_const,
    (np_sum_delta n i (fun _ => v - u i) Hi).
  lra.
Qed.

Lemma operator_sym_trace n u v :
  np_trace n (operator_lstarllstarinv_sym u v) = np_sum n u + INR n * v.
Proof.
  unfold np_trace.
  rewrite (np_sum_ext n _ (fun i => u i + v)).
  - rewrite np_sum_plus, np_sum_const. reflexivity.
  - intros i _. rewrite operator_sym_entry, Nat.eqb_refl. lra.
Qed.

Lemma operator_sym_symmetric u v i j :
  operator_lstarllstarinv_sym u v i j = operator_lstarllstarinv_sym u v j i.
Proof.
  rewrite !operator_sym_entry, (Nat.eqb_sym j i).
  destruct (Nat.eqb_spec i j) as [->|_]; lra.
Qed.

Lemma rowsum_msub n A B i :
  np_sum n ((A - B)%M i) = np_sum n (A i) - np_sum n (B i).
Proof. unfold msub. apply np_sum_minus. Qed.

Lemma trace_msub n A B :
  np_trace n (A - B)%M = np_trace n A - np_trace n B.
Proof. unfold np_trace, msub. apply np_sum_minus. Qed.

Lemma sum_shifted n (r : vec) :
  np_sum n (fun i => r i - 1) = np_sum n r - INR n.
Proof. rewrite np_sum_minus, np_sum_const. lra. Qed.

Lemma sum_div n (f : vec) c :
  np_sum n (fun i => f i / c) = np_sum n f / c.
Proof.
  unfold Rdiv.
  rewrite (np_sum_ext n _ (fun i => / c * f i)) by (intros; lra).
  rewrite np_sum_scal. lra.
Qed.

Lemma sum_plus_div n (x : vec) (q c : R) :
  np_sum n (fun i => (x i + q) / c) = (np_sum n x + INR n * q) / c.
Proof. rewrite sum_div, np_sum_plus, np_sum_const. reflexivity. Qed.

Lemma sum_minus_div n (x : vec) (q c : R) :
  np_sum n (fun i => (x i - q) / c) = (np_sum n x - INR n * q) / c.
Proof. rewrite sum_div, np_sum_minus, np_sum_const. reflexivity. Qed.

Lemma Hrows_feasible n Y K :
  (2 <= n)%nat -> feasible n K (proj_lin_Hrows n Y K).
Proof.
  intros Hn. apply INR_ge_2 in Hn.
  unfold feasible, proj_lin_Hrows, np_sum_axis1. split.
  - intros i Hi. rewrite rowsum_msub, operator_rowsum by exact Hi.
    field. nra.
  - rewrite trace_msub, operator_trace, sum_plus_div.
    field. nra.
Qed.

Lemma Hsymmetric_feasible n Y K :
  (2 <= n)%nat -> feasible n K (proj_lin_Hsymmetric n Y K).
Proof.
  intros Hn. apply INR_ge_2 in Hn.
  unfold feasible, proj_lin_Hsymmetric, np_sum_axis1. split.
  - intros i Hi. rewrite rowsum_msub, operator_sym_rowsum by exact Hi.
    rewrite sum_minus_div. field. lra.
  - rewrite trace_msub, operator_sym_trace, sum_minus_div.
    field. lra.
Qed.

Lemma Hsymmetric_symmetric n Y K :
  symmetric n Y -> symmetric n (proj_lin_Hsymmetric n Y K).
Proof.
  intros HY i j Hi Hj. unfold proj_lin_Hsymmetric, msub.
  rewrite (HY i j Hi Hj). f_equal. apply operator_sym_symmetric.
Qed.

(** ** The affine projector: nearest point *)

Lemma inner_operator n u v D :
  inner n (operator_lstarllstarinv u v) D =
  np_sum n (fun i => u i * np_sum n (D i)) + v * np_trace n D.
Proof.
  unfold inner, np_trace. rewrite <- np_sum_scal, <- np_sum_plus.
  apply np_sum_ext; intros i Hi.
  rewrite (np_sum_ext n _
    (fun j => u i * D i j + (if Nat.eqb i j then v * D i j else 0))).
  - rewrite np_sum_plus, np_sum_scal,
      (np_sum_delta n i (fun j => v * D i j) Hi). reflexivity.
  - intros j _. rewrite operator_entry.
    destruct (Nat.eqb i j); lra.
Qed.

Lemma feasible_difference n K P A :
  feasible n K P -> feasible n K A ->
  (forall i, (i < n)%nat -> np_sum n ((P - A)%M i) = 0) /\
  np_trace n (P - A)%M = 0.
Proof.
  intros [HP HPt] [HA HAt]. unfold np_sum_axis1 in *. split.
  - intros i Hi. rewrite rowsum_msub, HP, HA by exact Hi. lra.
  - rewrite trace_msub, HPt, HAt. lra.
Qed.

Lemma msub_msub n Y C : mat_eq n (Y - (Y - C))%M C.
Proof. intros i j _ _. unfold msub. lra. Qed.

Lemma Hrows_nearest n Y K A :
  (2 <= n)%nat -> feasible n K A ->
  np_linalg_norm n (Y - proj_lin_Hrows n Y K)%M <= np_linalg_norm n (Y - A)%M.
Proof.
  intros Hn HA. unfold np_linalg_norm. apply sqrt_le_1_alt.
  apply nearest_of_orthogonal.
  destruct (feasible_difference n K _ A (Hrows_feasible n Y K Hn) HA)
    as [Hrow Htr].
  unfold proj_lin_Hrows in *.
  rewrite (inner_ext n _ _ _ _ (msub_msub n Y _) (fun i j _ _ => eq_refl)).
  rewrite inner_operator, Htr.
  rewrite np_sum_zero; [lra|].
  intros i Hi. rewrite Hrow by exact Hi. lra.
Qed.

(** For a symmetric matrix the upper-triangle norm is the Frobenius norm
    with the diagonal counted twice, halved. *)
Lemma sumsq_upper_symmetric n M :
  symmetric n M ->
  2 * sumsq_upper n M = sumsq n M + np_sum n (fun i => M i i * M i i).
Proof.
  intros HM.
  assert (Hflip : sumsq_upper n M =
    np_sum n (fun i =>
      np_sum n (fun j => if (j <=? i)%nat then M i j * M i j else 0))).
  { unfold sumsq_upper. rewrite np_sum_swap.
    apply np_sum_ext; intros i Hi. apply np_sum_ext; intros j Hj.
    rewrite (HM j i Hj Hi). reflexivity. }
  replace (2 * sumsq_upper n M) with (sumsq_upper n M + sumsq_upper n M)
    by lra.
  rewrite Hflip at 2. unfold sumsq_upper, sumsq.
  rewrite <- !np_sum_plus. apply np_sum_ext; intros i Hi.
  rewrite <- (np_sum_delta n i (fun j => M i j * M i j) Hi).
  rewrite <- !np_sum_plus. apply np_sum_ext; intros j _.
  destruct (Nat.leb_spec i j), (Nat.leb_spec j i), (Nat.eqb_spec i j);
    try lia; lra.
Qed.

Lemma sumsq_diag_plus n (A B : mat) :
  np_sum n (fun i => (A + B)%M i i * (A + B)%M i i) =
  np_sum n (fun i => A i i * A i i)
  + 2 * np_sum n (fun i => A i i * B i i)
  + np_sum n (fun i => B i i * B i i).
Proof.
  rewrite <- np_sum_scal, <- !np_sum_plus.
  apply np_sum_ext; intros i _. unfold madd. lra.
Qed.

Lemma inner_operator_sym n u v D :
  inner n (operator_lstarllstarinv_sym u v) D =
  np_sum n (fun i => u i * np_sum n (D i))
  + np_sum n (fun j => u j * np_sum n (fun i => D i j))
  + np_sum n (fun i => (v - u i) * D i i).
Proof.
  unfold inner.
  rewrite <- (np_sum_scal_each n u (fun j i => D i j)).
  rewrite (np_sum_swap n n (fun j i => u j * D i j)).
  rewrite <- !np_sum_plus.
  apply np_sum_ext; intros i Hi.
  rewrite <- np_sum_scal, <- np_sum_plus.
  rewrite <- (np_sum_delta n i (fun j => (v - u i) * D i j) Hi).
  rewrite <- np_sum_plus.
  apply np_sum_ext; intros j _. rewrite operator_sym_entry.
  destruct (Nat.eqb i j); lra.
Qed.

Lemma msub_symmetric n A B :
  symmetric n A -> symmetric n B -> symmetric n (A - B)%M.
Proof.
  intros HA HB i j Hi Hj. unfold msub.
  rewrite (HA i j Hi Hj), (HB i j Hi Hj). reflexivity.
Qed.

Lemma madd_symmetric n A B :
  symmetric n A -> symmetric n B -> symmetric n (A + B)%M.
Proof.
  intros HA HB i j Hi Hj. unfold madd.
  rewrite (HA i j Hi Hj), (HB i j Hi Hj). reflexivity.
Qed.

Lemma mdiv_symmetric n A c : symmetric n A -> symmetric n (A / c)%M.
Proof.
  intros HA i j Hi Hj. unfold mdiv. rewrite (HA i j Hi Hj). reflexivity.
Qed.

Lemma mneg_symmetric n A : symmetric n A -> symmetric n (- A)%M.
Proof.
  intros HA i j Hi Hj. unfold mneg. rewrite (HA i j Hi Hj). reflexivity.
Qed.

Lemma sumsq_upper_ext n A B :
  mat_eq n A B -> sumsq_upper n A = sumsq_upper n B.
Proof.
  intros H. unfold sumsq_upper.
  apply np_sum_ext; intros i Hi. apply np_sum_ext; intros j Hj.
  rewrite (H i j Hi Hj). reflexivity.
Qed.

Lemma Hsymmetric_nearest_upper n Y K A :
  (2 <= n)%nat -> symmetric n Y -> symmetric n A -> feasible n K A ->
  norm_upper n (Y - proj_lin_Hsymmetric n Y K)%M <= norm_upper n (Y - A)%M.
Proof.
  intros Hn HY HAs HA. unfold norm_upper. apply sqrt_le_1_alt.
  pose proof (Hsymmetric_symmetric n Y K HY) as HPs.
  destruct (feasible_difference n K _ A (Hsymmetric_feasible n Y K Hn) HA)
    as [Hrow Htr].
  set (P := proj_lin_Hsymmetric n Y K) in *.
  assert (HD : symmetric n (P - A)%M) by (apply msub_symmetric; assumption).
  assert (HC : symmetric n (Y - P)%M) by (apply msub_symmetric; assumption).
  assert (Hsplit : mat_eq n (Y - A)%M ((Y - P) + (P - A))%M).
  { intros i j _ _. unfold madd, msub. lra. }
  rewrite (sumsq_upper_ext n _ _ Hsplit).
  assert (HCD : symmetric n ((Y - P) + (P - A))%M)
    by (apply madd_symmetric; assumption).
  pose proof (sumsq_upper_symmetric n _ HC) as E1.
  pose proof (sumsq_upper_symmetric n _ HCD) as E2.
  rewrite sumsq_plus, sumsq_diag_plus in E2.
  assert (Horth :
    inner n (Y - P)%M (P - A)%M
    + np_sum n (fun i => (Y - P)%M i i * (P - A)%M i i) = 0).
  { unfold P at 1 3, proj_lin_Hsymmetric.
    match goal with
    | |- context [operator_lstarllstarinv_sym ?u ?v] =>
        set (iu := u); set (iv := v)
    end.
    rewrite (inner_ext n _ _ _ _ (msub_msub n Y _) (fun i j _ _ => eq_refl)).
    rewrite inner_operator_sym.
    assert (Z1 : np_sum n (fun i => iu i * np_sum n ((P - A)%M i)) = 0).
    { apply np_sum_zero. intros i Hi. rewrite Hrow by exact Hi. lra. }
    assert (Z2 : np_sum n
               (fun j => iu j * np_sum n (fun i => (P - A)%M i j)) = 0).
    { apply np_sum_zero. intros j Hj.
      rewrite (np_sum_ext n _ ((P - A)%M j))
        by (intros i Hi; apply HD; assumption).
      rewrite Hrow by exact Hj. lra. }
    rewrite Z1, Z2, !Rplus_0_l, <- np_sum_plus.
    rewrite (np_sum_ext n _ (fun i => (2 * iv) * (P - A)%M i i)).
    - rewrite np_sum_scal. fold (np_trace n (P - A)%M). rewrite Htr. lra.
    - intros i _. unfold msub. rewrite operator_sym_entry, Nat.eqb_refl.
      lra. }
  pose proof (sumsq_nonneg n (P - A)%M) as N1.
  assert (N2 : 0 <= np_sum n (fun i => (P - A)%M i i * (P - A)%M i i))
    by (apply np_sum_nonneg; intros; nra).
  nra.
Qed.

(** ** The symmetric variant on [diag(1, 0, 0)] *)

Lemma Hsymmetric_diag100 :
  mat_eq 3 (proj_lin_Hsymmetric 3 Y_diag100 1) P_diag100.
Proof.
  intros i j Hi Hj.
  unfold proj_lin_Hsymmetric, msub. rewrite operator_sym_entry.
  unfold np_sum_axis1, np_trace.
  below_3 i j; simpl; field.
Qed.

Lemma A_closer_symmetric : symmetric 3 A_closer.
Proof. intros i j Hi Hj. below_3 i j; reflexivity. Qed.

Lemma Y_diag100_symmetric : symmetric 3 Y_diag100.
Proof. intros i j Hi Hj. below_3 i j; reflexivity. Qed.

Lemma A_closer_feasible : feasible 3 1 A_closer.
Proof.
  split.
  - intros i Hi. unfold np_sum_axis1.
    destruct i as [|[|[|i]]]; [| | |lia]; simpl; lra.
  - unfold np_trace. simpl. lra.
Qed.

Lemma sumsq_diag100_closer : sumsq 3 (Y_diag100 - A_closer)%M = 10 / 9.
Proof. unfold sumsq, msub. simpl. lra. Qed.

Lemma sumsq_diag100_projected :
  sumsq 3 (Y_diag100 - proj_lin_Hsymmetric 3 Y_diag100 1)%M = 7 / 6.
Proof.
  rewrite (sumsq_ext 3 _ (Y_diag100 - P_diag100)%M).
  - unfold sumsq, msub. simpl. lra.
  - intros i j Hi Hj. unfold msub.
    rewrite (Hsymmetric_diag100 i j Hi Hj). reflexivity.
Qed.

(** C2, the claim as written fails for the symmetric variant: a symmetric
    matrix with unit row sums and trace [K] lies strictly nearer to the
    symmetric input, in Frobenius norm, than the matrix the function
    returns. *)
Lemma Hsymmetric_not_frobenius_nearest :
  symmetric 3 Y_diag100 /\
  symmetric 3 A_closer /\ feasible 3 1 A_closer /\
  np_linalg_norm 3 (Y_diag100 - A_closer)%M
  < np_linalg_norm 3 (Y_diag100 - proj_lin_Hsymmetric 3 Y_diag100 1)%M.
Proof.
  split; [exact Y_diag100_symmetric|].
  split; [exact A_closer_symmetric|].
  split; [exact A_closer_feasible|].
  unfold np_linalg_norm.
  rewrite sumsq_diag100_closer, sumsq_diag100_projected.
  apply sqrt_lt_1_alt. lra.
Qed.

(** C2, as amended.  For [n >= 2] both variants return a matrix whose rows
    sum to [1] and whose trace is [K].  [proj_lin_Hrows] returns the nearest
    such matrix in Frobenius norm.  [proj_lin_Hsymmetric] returns a symmetric
    matrix whenever [Y] is symmetric, and then the nearest symmetric such
    matrix in the norm that counts each unordered pair of indices once (the
    norm of the upper triangle), not in Frobenius norm. *)
Theorem affine_projector_nearest (n : nat) (Y : mat) (K : R)
    (Hn : (2 <= n)%nat) :
  feasible n K (proj_lin_Hrows n Y K) /\
  (forall A, feasible n K A ->
     np_linalg_norm n (Y - proj_lin_Hrows n Y K)%M
     <= np_linalg_norm n (Y - A)%M) /\
  feasible n K (proj_lin_Hsymmetric n Y K) /\
  (symmetric n Y ->
     symmetric n (proj_lin_Hsymmetric n Y K) /\
     forall A, symmetric n A -> feasible n K A ->
       norm_upper n (Y - proj_lin_Hsymmetric n Y K)%M
       <= norm_upper n (Y - A)%M).
Proof.
  split; [apply Hrows_feasible; exact Hn|].
  split; [intros A HA; apply (Hrows_nearest n Y K A Hn HA)|].
  split; [apply Hsymmetric_feasible; exact Hn|].
  intros HY. split; [apply Hsymmetric_symmetric; exact HY|].
  intros A HAs HA. apply (Hsymmetric_nearest_upper n Y K A); assumption.
Qed.

Lemma affine_projector_nearest_witness :
  feasible 3 1 (proj_lin_Hrows 3 Y_diag100 1) /\
  np_linalg_norm 3 (Y_diag100 - proj_lin_Hrows 3 Y_diag100 1)%M
  <= np_linalg_norm 3 (Y_diag100 - A_closer)%M /\
  symmetric 3 (proj_lin_Hsymmetric 3 Y_diag100 1) /\
  norm_upper 3 (Y_diag100 - proj_lin_Hsymmetric 3 Y_diag100 1)%M
  <= norm_upper 3 (Y_diag100 - A_closer)%M.
Proof.
  assert (H3 : (2 <= 3)%nat) by lia.
  destruct (affine_projector_nearest 3 Y_diag100 1 H3)
    as (F & N & _ & S).
  destruct (S Y_diag100_symmetric) as [Ssym Snear].
  split; [exact F|].
  split; [apply N; exact A_closer_feasible|].
  split; [exact Ssym|].
  apply Snear; [exact A_closer_symmetric|exact A_closer_feasible].
Defined.

(** ** The solver: one pass and the loop *)

Lemma duals_cancel_init : duals_cancel admm_init.
Proof. intros i j. simpl. unfold np_zeros. lra. Qed.

Lemma dual_increments_cancel E n Rd K rho s i j :
  let s' := admm_body E n Rd K rho s in
  (st_X s' - st_Xbar s')%M i j + (st_Y s' - st_Xbar s')%M i j
  + (st_Z s' - st_Xbar s')%M i j = 0.
Proof. simpl. unfold msub, mdiv, madd. field. Qed.

Lemma duals_cancel_body E n Rd K rho s :
  duals_cancel s -> duals_cancel (admm_body E n Rd K rho s).
Proof.
  intros H i j. specialize (H i j).
  pose proof (dual_increments_cancel E n Rd K rho s i j) as Hinc.
  simpl in *. unfold msub, madd in *. lra.
Qed.

Lemma admm_loop_invariant (P : admm_state -> Prop) E n Rd K rho :
  (forall s, P s -> P (admm_body E n Rd K rho s)) ->
  forall remaining s, P s -> P (admm_loop E n Rd K rho remaining s).
Proof.
  intros Hstep remaining.
  induction remaining as [|r IH]; intros s Hs; simpl; [exact Hs|].
  destruct (residuals_high n (admm_body E n Rd K rho s)).
  - apply IH, Hstep, Hs.
  - apply Hstep, Hs.
Qed.

Lemma iter_body_invariant (P : admm_state -> Prop) E n Rd K rho :
  (forall s, P s -> P (admm_body E n Rd K rho s)) ->
  forall k s, P s -> P (Nat.iter k (admm_body E n Rd K rho) s).
Proof.
  intros Hstep k. induction k as [|k IH]; intros s Hs; simpl; [exact Hs|].
  apply Hstep, IH, Hs.
Qed.

Lemma iter_body_shift (f : admm_state -> admm_state) k s :
  Nat.iter k f (f s) = f (Nat.iter k f s).
Proof. induction k as [|k IH]; simpl; [|rewrite IH]; reflexivity. Qed.

(** The loop runs the body [k] times for some [k] within the budget; it
    stops early only on a pass after which no residual is high, and every
    earlier pass left a high residual. *)
Lemma admm_loop_passes E n Rd K rho remaining s :
  exists k, (k <= remaining)%nat /\
    admm_loop E n Rd K rho remaining s
      = Nat.iter k (admm_body E n Rd K rho) s /\
    (0 < remaining -> 0 < k)%nat /\
    (forall j, (0 < j < k)%nat ->
       residuals_high n (Nat.iter j (admm_body E n Rd K rho) s) = true) /\
    ((k < remaining)%nat ->
       residuals_high n (Nat.iter k (admm_body E n Rd K rho) s) = false).
Proof.
  revert s. induction remaining as [|r IH]; intros s.
  - exists 0%nat. simpl.
    split; [lia|]. split; [reflexivity|].
    split; [lia|]. split; intros; lia.
  - simpl. destruct (residuals_high n (admm_body E n Rd K rho s)) eqn:Hhigh.
    + destruct (IH (admm_body E n Rd K rho s))
        as (k & Hk & Heq & _ & Hj & Hstop).
      exists (S k). rewrite Heq.
      split; [lia|].
      split; [simpl; apply iter_body_shift|].
      split; [lia|]. split.
      * intros j Hjk. destruct j as [|j]; [lia|]. simpl.
        rewrite <- iter_body_shift.
        destruct j as [|j]; [exact Hhigh|]. apply Hj. lia.
      * intros Hlt. simpl. rewrite <- iter_body_shift. apply Hstop. lia.
    + exists 1%nat.
      split; [lia|]. split; [reflexivity|].
      split; [lia|]. split; [intros j Hj; lia|].
      intros _. exact Hhigh.
Qed.

Lemma body_n_iter E n Rd K rho s :
  st_n_iter (admm_body E n Rd K rho s) = (st_n_iter s + 1)%nat.
Proof. reflexivity. Qed.

Lemma iter_body_n_iter E n Rd K rho k s :
  st_n_iter (Nat.iter k (admm_body E n Rd K rho) s) = (st_n_iter s + k)%nat.
Proof.
  induction k as [|k IH]; simpl; [lia|]. rewrite IH. lia.
Qed.

Lemma iter_body_bound E n Rd K rho k s :
  (0 < k)%nat -> residuals_bound (Nat.iter k (admm_body E n Rd K rho) s).
Proof.
  intros Hk. destruct k as [|k]; [lia|]. simpl. split; discriminate.
Qed.

Lemma pecok_admm_returns E n Rd K n_iter_max rho :
  (0 < n_iter_max)%nat ->
  pecok_admm E n Rd K n_iter_max rho
  = Returns (st_Z (pecok_admm_state E n Rd K n_iter_max rho)).
Proof.
  intros Hpos. unfold pecok_admm, pecok_admm_state.
  destruct (admm_loop_passes E n (Rd / np_linalg_norm n Rd)%M K rho
              n_iter_max admm_init) as (k & _ & Heq & Hk & _).
  rewrite Heq. destruct k as [|k]; [specialize (Hk Hpos); lia|].
  reflexivity.
Qed.

(** With an iteration budget of zero the loop body never runs,
    [res_primal] and [res_dual] stay unbound, and the closing [print]
    raises instead of [Z] being returned. *)
Lemma pecok_admm_zero_budget E (n : nat) (Rd : mat) (K rho : R) :
  pecok_admm E n Rd K 0 rho = UnboundLocalError.
Proof. reflexivity. Qed.

(** With a positive budget the call returns the [Z] of the last pass after
    at least one and at most [n_iter_max] passes, whether or not the
    tolerances were met. *)
Lemma pecok_admm_within_budget E n Rd K n_iter_max rho :
  (0 < n_iter_max)%nat ->
  let s := pecok_admm_state E n Rd K n_iter_max rho in
  pecok_admm E n Rd K n_iter_max rho = Returns (st_Z s) /\
  (1 <= st_n_iter s <= n_iter_max)%nat.
Proof.
  intros Hpos s. split; [apply pecok_admm_returns; exact Hpos|].
  unfold s, pecok_admm_state.
  destruct (admm_loop_passes E n (Rd / np_linalg_norm n Rd)%M K rho
              n_iter_max admm_init) as (k & Hle & Heq & Hk & _).
  rewrite Heq, iter_body_n_iter. simpl. specialize (Hk Hpos). lia.
Qed.

(** The default call, with a budget of [n_max = 3000] passes and
    [rho = 1.0], returns after at most that many passes. *)
Lemma pecok_admm_default_within_budget E n Rd K :
  let s := pecok_admm_state E n Rd K n_max 1 in
  pecok_admm_default E n Rd K = Returns (st_Z s) /\
  (1 <= st_n_iter s <= 3000)%nat.
Proof.
  apply (pecok_admm_within_budget E n Rd K n_max 1).
  unfold n_max. apply Nat.lt_0_succ.
Qed.

(** C6, and where the code departs from it.  A call never makes more than
    [n_iter_max] passes.  With a budget of at least one pass it returns the
    [Z] of its last pass, whether or not the tolerances were met; with a
    budget of zero it makes no pass and raises [UnboundLocalError] at the
    closing [print] instead of returning [Z]. *)
Theorem pecok_admm_budget E (n : nat) (Rd : mat) (K rho : R)
    (n_iter_max : nat) :
  let s := pecok_admm_state E n Rd K n_iter_max rho in
  (st_n_iter s <= n_iter_max)%nat /\
  ((0 < n_iter_max)%nat ->
     pecok_admm E n Rd K n_iter_max rho = Returns (st_Z s) /\
     (1 <= st_n_iter s)%nat) /\
  (n_iter_max = 0%nat ->
     pecok_admm E n Rd K n_iter_max rho = UnboundLocalError).
Proof.
  intros s. split; [|split].
  - unfold s, pecok_admm_state.
    destruct (admm_loop_passes E n (Rd / np_linalg_norm n Rd)%M K rho
                n_iter_max admm_init) as (k & Hle & Heq & _).
    rewrite Heq, iter_body_n_iter. simpl. exact Hle.
  - intros Hpos.
    destruct (pecok_admm_within_budget E n Rd K n_iter_max rho Hpos)
      as [Hret Hiter].
    split; [exact Hret|apply Hiter].
  - intros ->. apply pecok_admm_zero_budget.
Qed.

(** *** Runs without a zero divisor *)

Lemma checked_mdiv_nonzero A b : b <> 0 -> checked_mdiv A b = Some (A / b)%M.
Proof.
  intros H. unfold checked_mdiv.
  destruct (Req_dec_T b 0); [contradiction|reflexivity].
Qed.

Lemma checked_mdiv_zero A b : b = 0 -> checked_mdiv A b = None.
Proof.
  intros H. unfold checked_mdiv.
  destruct (Req_dec_T b 0); [reflexivity|contradiction].
Qed.

Lemma admm_body_checked_some E n Rd K rho s :
  (2 <= n)%nat -> rho <> 0 ->
  admm_body_checked E n Rd K rho s = Some (admm_body E n Rd K rho s).
Proof.
  intros Hn Hrho. unfold admm_body_checked.
  rewrite checked_mdiv_nonzero by exact Hrho.
  rewrite Hsymmetric_checked_ge_2 by exact Hn.
  reflexivity.
Qed.

Lemma admm_body_checked_none E n Rd K rho s :
  rho = 0 \/ (n < 2)%nat -> admm_body_checked E n Rd K rho s = None.
Proof.
  intros H. unfold admm_body_checked.
  destruct (Req_dec_T rho 0) as [Hrho|Hrho].
  - rewrite checked_mdiv_zero by exact Hrho. reflexivity.
  - destruct H as [H|H]; [contradiction|].
    rewrite checked_mdiv_nonzero by exact Hrho.
    rewrite Hsymmetric_checked_lt_2 by exact H. reflexivity.
Qed.

Lemma admm_loop_checked_some E n Rd K rho remaining s :
  (2 <= n)%nat -> rho <> 0 ->
  admm_loop_checked E n Rd K rho remaining s
  = Some (admm_loop E n Rd K rho remaining s).
Proof.
  intros Hn Hrho. revert s.
  induction remaining as [|r IH]; intros s; simpl; [reflexivity|].
  rewrite admm_body_checked_some by assumption.
  destruct (residuals_high n (admm_body E n Rd K rho s));
    [apply IH|reflexivity].
Qed.

(** For [n >= 2], an input of non-zero norm and [rho <> 0], no quotient of
    a run has a zero divisor, and the run ends in [pecok_admm_state]. *)
Lemma pecok_admm_state_checked_some E n Rd K n_iter_max rho :
  (2 <= n)%nat -> np_linalg_norm n Rd <> 0 -> rho <> 0 ->
  pecok_admm_state_checked E n Rd K n_iter_max rho
  = Some (pecok_admm_state E n Rd K n_iter_max rho).
Proof.
  intros Hn Hnorm Hrho. unfold pecok_admm_state_checked, pecok_admm_state.
  rewrite checked_mdiv_nonzero by exact Hnorm.
  apply admm_loop_checked_some; assumption.
Qed.

(** Elsewhere a run that makes a pass has one. *)
Lemma pecok_admm_state_checked_none E n Rd K n_iter_max rho :
  np_linalg_norm n Rd = 0 \/
  ((0 < n_iter_max)%nat /\ (rho = 0 \/ (n < 2)%nat)) ->
  pecok_admm_state_checked E n Rd K n_iter_max rho = None.
Proof.
  intros H. unfold pecok_admm_state_checked.
  destruct (Req_dec_T (np_linalg_norm n Rd) 0) as [Hnorm|Hnorm].
  - rewrite checked_mdiv_zero by exact Hnorm. reflexivity.
  - destruct H as [H|(Hpos & H)]; [contradiction|].
    rewrite checked_mdiv_nonzero by exact Hnorm.
    destruct n_iter_max as [|r]; [lia|]. simpl.
    rewrite admm_body_checked_none by exact H. reflexivity.
Qed.

Lemma np_identity_norm_2 : np_linalg_norm 2 np_identity <> 0.
Proof.
  unfold np_linalg_norm, sumsq, np_identity. simpl.
  intros H. apply sqrt_eq_0 in H; lra.
Qed.

(** C10.  On matrices of size at least [2], for an input of non-zero norm
    and [rho <> 0] (elsewhere the code divides by zero and its duals are
    [nan]): the three dual variables sum to the zero matrix before the
    first pass, after every number [k] of passes, and in the state the loop
    ends in; on every pass the three increments [X - Xbar], [Y - Xbar],
    [Z - Xbar] sum to zero because [Xbar] is the mean of [X], [Y], [Z].
    The passes work with the input divided by its Frobenius norm. *)
Theorem dual_variables_cancel E (n : nat) (Rd : mat) (K rho : R)
    (n_iter_max k : nat) :
  (2 <= n)%nat -> np_linalg_norm n Rd <> 0 -> rho <> 0 ->
  duals_cancel admm_init /\
  duals_cancel
    (Nat.iter k (admm_body E n (Rd / np_linalg_norm n Rd)%M K rho)
       admm_init) /\
  duals_cancel (pecok_admm_state E n Rd K n_iter_max rho) /\
  (forall s i j,
     let s' := admm_body E n (Rd / np_linalg_norm n Rd)%M K rho s in
     st_Xbar s' = ((st_X s' + st_Y s' + st_Z s') / 3)%M /\
     (st_X s' - st_Xbar s')%M i j + (st_Y s' - st_Xbar s')%M i j
     + (st_Z s' - st_Xbar s')%M i j = 0).
Proof.
  intros _ _ _.
  split; [exact duals_cancel_init|].
  split.
  { apply iter_body_invariant; [apply duals_cancel_body|exact duals_cancel_init]. }
  split.
  { unfold pecok_admm_state.
    apply admm_loop_invariant; [apply duals_cancel_body|exact duals_cancel_init]. }
  intros s i j s'. split; [reflexivity|].
  apply dual_increments_cancel.
Qed.

Lemma dual_variables_cancel_witness :
  duals_cancel (pecok_admm_state eigh2 2 np_identity 1 3 1).
Proof.
  destruct (dual_variables_cancel eigh2 2 np_identity 1 1 3 0
              (le_n 2) np_identity_norm_2 R1_neq_R0) as (_ & _ & H & _).
  exact H.
Defined.

(** C4.  On matrices of size at least [2], for an input of non-zero norm
    and [rho <> 0], with [Rn] the input divided by its Frobenius norm.  The
    state starts with [X = Y = Z] the identity and [U = V = W] zero.  One
    pass computes [X], [Y], [Z] from the old [Xbar], [U], [V], [W] and
    [Rn / rho], then the new [Xbar] as their mean, then the three duals from
    the new [Xbar].  A turn of the loop with budget left makes one such pass
    and goes on exactly when a residual is high after it.  The run is the
    loop on [Rn] from the initial state: it makes [k] passes, all with
    [Rn], where [k] is the final [n_iter], at most the budget and at least
    [1] when the budget is; a residual is high after every pass before the
    last, and none is after the last when budget is left. *)
Theorem admm_iteration_order E (n : nat) (Rd : mat) (K rho : R)
    (n_iter_max : nat) :
  (2 <= n)%nat -> np_linalg_norm n Rd <> 0 -> rho <> 0 ->
  let Rn := (Rd / np_linalg_norm n Rd)%M in
  (st_X admm_init = np_identity /\ st_Y admm_init = np_identity /\
   st_Z admm_init = np_identity /\ st_U admm_init = np_zeros /\
   st_V admm_init = np_zeros /\ st_W admm_init = np_zeros) /\
  (forall s,
     let s' := admm_body E n Rn K rho s in
     st_X s' = proj_lin_Hsymmetric n (st_Xbar s - st_U s + Rn / rho)%M K /\
     st_Y s' = proj_positive (st_Xbar s - st_V s)%M 0 /\
     st_Z s' = proj_Snp_imp E n (st_Xbar s - st_W s)%M /\
     st_Xbar s' = ((st_X s' + st_Y s' + st_Z s') / 3)%M /\
     st_U s' = (st_U s + st_X s' - st_Xbar s')%M /\
     st_V s' = (st_V s + st_Y s' - st_Xbar s')%M /\
     st_W s' = (st_W s + st_Z s' - st_Xbar s')%M) /\
  (forall r s,
     admm_loop E n Rn K rho (S r) s
     = if residuals_high n (admm_body E n Rn K rho s)
       then admm_loop E n Rn K rho r (admm_body E n Rn K rho s)
       else admm_body E n Rn K rho s) /\
  pecok_admm_state E n Rd K n_iter_max rho
  = admm_loop E n Rn K rho n_iter_max admm_init /\
  (exists k,
     (k <= n_iter_max)%nat /\
     ((0 < n_iter_max)%nat -> (0 < k)%nat) /\
     pecok_admm_state E n Rd K n_iter_max rho
     = Nat.iter k (admm_body E n Rn K rho) admm_init /\
     st_n_iter (pecok_admm_state E n Rd K n_iter_max rho) = k /\
     (forall j, (0 < j < k)%nat ->
        residuals_high n (Nat.iter j (admm_body E n Rn K rho) admm_init)
        = true) /\
     ((k < n_iter_max)%nat ->
        residuals_high n (Nat.iter k (admm_body E n Rn K rho) admm_init)
        = false)).
Proof.
  intros _ _ _ Rn.
  split; [repeat split|].
  split; [intros s s'; repeat split|].
  split; [intros r s; reflexivity|].
  split; [reflexivity|].
  unfold pecok_admm_state. fold Rn.
  destruct (admm_loop_passes E n Rn K rho n_iter_max admm_init)
    as (k & Hle & Heq & Hpos & Hhigh & Hstop).
  exists k. rewrite Heq.
  split; [exact Hle|]. split; [exact Hpos|]. split; [reflexivity|].
  split; [rewrite iter_body_n_iter; reflexivity|].
  split; assumption.
Qed.

Lemma admm_iteration_order_witness :
  exists k, (0 < k <= 2)%nat /\
    st_n_iter (pecok_admm_state eigh2 2 np_identity 1 2 1) = k.
Proof.
  destruct (admm_iteration_order eigh2 2 np_identity 1 1 2
              (le_n 2) np_identity_norm_2 R1_neq_R0)
    as (_ & _ & _ & _ & k & Hle & Hpos & _ & Hn & _).
  exists k. split; [split; [apply Hpos; lia|exact Hle]|exact Hn].
Defined.

Lemma is_primal_high_true n res X Y Z :
  is_primal_high n res X Y Z = true <->
  res > epsilon * Rmax (Rmax (np_linalg_norm n X) (np_linalg_norm n Y))
                       (np_linalg_norm n Z).
Proof.
  unfold is_primal_high.
  destruct (Rlt_dec _ res) as [H|H]; split; intros H';
    try reflexivity; try discriminate; try exact H; contradiction.
Qed.

Lemma is_dual_high_true n res Y Z :
  is_dual_high n res Y Z = true <->
  res > epsilon * (sqrt (INR n) + np_linalg_norm n Y + np_linalg_norm n Z).
Proof.
  unfold is_dual_high.
  destruct (Rlt_dec _ res) as [H|H]; split; intros H';
    try reflexivity; try discriminate; try exact H; contradiction.
Qed.

(** C5.  After a pass the dual residual is [rho] times the Frobenius norm of
    the change of [Xbar], the primal residual is the joint Frobenius norm of
    [X - Xbar], [Y - Xbar], [Z - Xbar], and the loop goes on to another pass
    exactly when a pass remains in the budget and the primal residual
    exceeds [epsilon * max(|X|, |Y|, |Z|)] or the dual residual exceeds
    [epsilon * (sqrt n + |Y| + |Z|)], with [epsilon = 1e-8]; the norm of [X]
    does not enter the dual tolerance. *)
Theorem convergence_test E (n : nat) (Rd : mat) (K rho : R)
    (s : admm_state) :
  let s' := admm_body E n Rd K rho s in
  let res_dual := rho * np_linalg_norm n (st_Xbar s' - st_Xbar s)%M in
  let res_primal :=
    sqrt (sumsq n (st_X s' - st_Xbar s')%M + sumsq n (st_Y s' - st_Xbar s')%M
          + sumsq n (st_Z s' - st_Xbar s')%M) in
  st_res_dual s' = Some res_dual /\
  st_res_primal s' = Some res_primal /\
  epsilon = 1 / 100000000 /\
  (residuals_high n s' = true <->
     res_primal > epsilon * Rmax (Rmax (np_linalg_norm n (st_X s'))
                                       (np_linalg_norm n (st_Y s')))
                                 (np_linalg_norm n (st_Z s'))
     \/ res_dual > epsilon * (sqrt (INR n) + np_linalg_norm n (st_Y s')
                              + np_linalg_norm n (st_Z s'))) /\
  (forall remaining,
     admm_loop E n Rd K rho (S remaining) s
     = if residuals_high n s' then admm_loop E n Rd K rho remaining s'
       else s').
Proof.
  intros s' res_dual res_primal.
  assert (Hprimal : st_res_primal s' = Some res_primal).
  { unfold s', res_primal. simpl. unfold np_linalg_norm3.
    do 2 f_equal. lra. }
  split; [reflexivity|]. split; [exact Hprimal|].
  split; [unfold epsilon; lra|].
  split; [|reflexivity].
  unfold residuals_high. rewrite Hprimal.
  change (st_res_dual s') with (Some res_dual).
  rewrite orb_true_iff, is_primal_high_true, is_dual_high_true.
  reflexivity.
Qed.

(** ** Spectral sums *)

Lemma np_sum_scal_r n c (f : vec) :
  np_sum n (fun i => f i * c) = np_sum n f * c.
Proof.
  rewrite (np_sum_ext n _ (fun i => c * f i)) by (intros; lra).
  rewrite np_sum_scal. lra.
Qed.

Lemma np_sum_ext2 n m (f g : nat -> nat -> R) :
  (forall i j, (i < n)%nat -> (j < m)%nat -> f i j = g i j) ->
  np_sum n (fun i => np_sum m (f i)) = np_sum n (fun i => np_sum m (g i)).
Proof.
  intros H. apply np_sum_ext; intros i Hi.
  apply np_sum_ext; intros j Hj. apply H; assumption.
Qed.

Lemma reconstruct_entry m w v i j :
  reconstruct m w v i j = np_sum m (fun k => w k * v i k * v j k).
Proof.
  unfold reconstruct, np_dot, transpose, np_diag.
  apply np_sum_ext; intros k Hk.
  rewrite (np_sum_ext m _ (fun l => if Nat.eqb l k then v i l * w l else 0)).
  - rewrite (np_sum_delta_r m k (fun l => v i l * w l) Hk). lra.
  - intros l _. destruct (Nat.eqb l k); lra.
Qed.

Lemma spectral_ext n c c' v :
  (forall k, (k < n)%nat -> c k = c' k) ->
  forall i j, spectral n c v i j = spectral n c' v i j.
Proof.
  intros H i j. unfold spectral. apply np_sum_ext; intros k Hk.
  rewrite (H k Hk). reflexivity.
Qed.

Lemma spectral_symmetric n c v i j : spectral n c v i j = spectral n c v j i.
Proof. unfold spectral. apply np_sum_ext; intros k _. lra. Qed.

Lemma spectral_minus n c d v i j :
  spectral n (fun k => c k - d k) v i j
  = spectral n c v i j - spectral n d v i j.
Proof.
  unfold spectral. rewrite <- np_sum_minus.
  apply np_sum_ext; intros k _. lra.
Qed.

Lemma mulv_spectral n c v x i :
  mulv n (spectral n c v) x i
  = np_sum n (fun k => c k * v i k * dotv n (col v k) x).
Proof.
  unfold mulv, spectral, dotv, col.
  rewrite (np_sum_ext n _
    (fun j => np_sum n (fun k => c k * v i k * (v j k * x j)))).
  - rewrite np_sum_swap. apply np_sum_ext; intros k _.
    rewrite np_sum_scal. reflexivity.
  - intros j _. rewrite <- np_sum_scal_r.
    apply np_sum_ext; intros k _. lra.
Qed.

Lemma quad_mulv n A x : quad n A x = dotv n x (mulv n A x).
Proof.
  unfold quad, dotv, mulv. apply np_sum_ext; intros i _.
  rewrite <- np_sum_scal. apply np_sum_ext; intros j _. lra.
Qed.

Lemma quad_ext n A B x : mat_eq n A B -> quad n A x = quad n B x.
Proof.
  intros H. unfold quad. apply np_sum_ext2; intros i j Hi Hj.
  rewrite (H i j Hi Hj). reflexivity.
Qed.

Lemma quad_spectral n c v x :
  quad n (spectral n c v) x
  = np_sum n (fun k => c k * (dotv n (col v k) x * dotv n (col v k) x)).
Proof.
  rewrite quad_mulv. unfold dotv at 1.
  rewrite (np_sum_ext n _
    (fun i => np_sum n
       (fun k => c k * dotv n (col v k) x * (v i k * x i)))).
  - rewrite np_sum_swap. apply np_sum_ext; intros k _.
    rewrite np_sum_scal. unfold dotv, col. lra.
  - intros i _. rewrite mulv_spectral, <- np_sum_scal.
    apply np_sum_ext; intros k _. lra.
Qed.

Lemma inner_spectral n c v B :
  inner n (spectral n c v) B
  = np_sum n (fun k => c k * quad n B (col v k)).
Proof.
  unfold inner, quad, spectral, col.
  rewrite (np_sum_ext2 n n _
    (fun i j => np_sum n (fun k => c k * (v i k * B i j * v j k)))).
  - rewrite (np_sum_ext n _
      (fun i => np_sum n (fun k =>
         np_sum n (fun j => c k * (v i k * B i j * v j k)))))
      by (intros i _; apply np_sum_swap).
    rewrite np_sum_swap. apply np_sum_ext; intros k _.
    rewrite <- np_sum_scal. apply np_sum_ext; intros i _.
    rewrite <- np_sum_scal. reflexivity.
  - intros i j _ _. rewrite <- np_sum_scal_r.
    apply np_sum_ext; intros k _. lra.
Qed.

Lemma spectral_psd n c v :
  (forall k, (k < n)%nat -> 0 <= c k) -> psd n (spectral n c v).
Proof.
  intros Hc x. rewrite quad_spectral.
  apply np_sum_nonneg; intros k Hk. specialize (Hc k Hk). nra.
Qed.

Lemma pos_part_nonneg w k : 0 <= pos_part w k.
Proof. unfold pos_part. apply Rmax_r. Qed.

Lemma neg_part_nonneg w k : 0 <= neg_part w k.
Proof. unfold neg_part. apply Rmax_r. Qed.

Lemma pos_neg_split w k : w k = pos_part w k - neg_part w k.
Proof.
  unfold pos_part, neg_part, Rmax.
  destruct (Rle_dec (w k) 0), (Rle_dec (- w k) 0); lra.
Qed.

Lemma pos_neg_disjoint w k : pos_part w k * neg_part w k = 0.
Proof.
  unfold pos_part, neg_part, Rmax.
  destruct (Rle_dec (w k) 0), (Rle_dec (- w k) 0); lra.
Qed.

Lemma dotv_orthonormal n v a b :
  orthonormal n v -> (a < n)%nat -> (b < n)%nat ->
  dotv n (col v a) (col v b) = if Nat.eqb a b then 1 else 0.
Proof. intros H Ha Hb. apply (H a b Ha Hb). Qed.

(** On an orthonormal family the quadratic form of a spectral sum reads
    off the coefficient. *)
Lemma quad_spectral_col n c v m :
  orthonormal n v -> (m < n)%nat ->
  quad n (spectral n c v) (col v m) = c m.
Proof.
  intros Hv Hm. rewrite quad_spectral.
  rewrite (np_sum_ext n _ (fun k => if Nat.eqb k m then c k else 0)).
  - apply (np_sum_delta_r n m c Hm).
  - intros k Hk. rewrite (dotv_orthonormal n v k m Hv Hk Hm).
    destruct (Nat.eqb k m); lra.
Qed.

Lemma inner_spectral_same n c d v :
  orthonormal n v ->
  inner n (spectral n c v) (spectral n d v) = np_sum n (fun k => c k * d k).
Proof.
  intros Hv. rewrite inner_spectral.
  apply np_sum_ext; intros k Hk.
  rewrite (quad_spectral_col n d v k Hv Hk). reflexivity.
Qed.

Lemma inner_spectral_psd n c v B :
  (forall k, (k < n)%nat -> 0 <= c k) -> psd n B ->
  0 <= inner n (spectral n c v) B.
Proof.
  intros Hc HB. rewrite inner_spectral.
  apply np_sum_nonneg; intros k Hk.
  specialize (Hc k Hk). specialize (HB (col v k)). nra.
Qed.

(** ** Uniqueness of the positive part *)

Lemma spectral_split n w v i j :
  spectral n w v i j
  = spectral n (pos_part w) v i j - spectral n (neg_part w) v i j.
Proof.
  rewrite <- spectral_minus. apply spectral_ext.
  intros k _. apply pos_neg_split.
Qed.

Lemma inner_pos_neg n w v :
  orthonormal n v ->
  inner n (spectral n (pos_part w) v) (spectral n (neg_part w) v) = 0.
Proof.
  intros Hv. rewrite (inner_spectral_same n _ _ v Hv).
  apply np_sum_zero. intros k _. apply pos_neg_disjoint.
Qed.

(** Two orthonormal spectral forms of one matrix have the same positive
    part: the matrix obtained by replacing the negative coefficients by
    zero does not depend on the eigenvectors chosen. *)
Lemma pos_part_unique n w v w' v' :
  orthonormal n v -> orthonormal n v' ->
  mat_eq n (spectral n w v) (spectral n w' v') ->
  mat_eq n (spectral n (pos_part w) v) (spectral n (pos_part w') v').
Proof.
  intros Hv Hv' Heq.
  set (P := spectral n (pos_part w) v).
  set (N := spectral n (neg_part w) v).
  set (P' := spectral n (pos_part w') v').
  set (N' := spectral n (neg_part w') v').
  assert (HD : mat_eq n (P - P')%M (N - N')%M).
  { intros i j Hi Hj. specialize (Heq i j Hi Hj).
    rewrite (spectral_split n w v), (spectral_split n w' v') in Heq.
    unfold msub, P, P', N, N'. lra. }
  assert (Hsq : sumsq n (P - P')%M = 0).
  { assert (Hnn := sumsq_nonneg n (P - P')%M).
    assert (Hcross : sumsq n (P - P')%M = inner n (P - P')%M (N - N')%M).
    { rewrite sumsq_inner. apply inner_ext; [|exact HD].
      intros i j _ _. reflexivity. }
    rewrite Hcross in *. clear Hcross.
    rewrite inner_minus_l, !inner_minus_r in *.
    assert (H1 : inner n P N = 0) by (apply inner_pos_neg; exact Hv).
    assert (H2 : inner n P' N' = 0) by (apply inner_pos_neg; exact Hv').
    assert (H3 : 0 <= inner n P N').
    { apply inner_spectral_psd; [intros; apply pos_part_nonneg|].
      apply spectral_psd. intros; apply neg_part_nonneg. }
    assert (H4 : 0 <= inner n P' N).
    { apply inner_spectral_psd; [intros; apply pos_part_nonneg|].
      apply spectral_psd. intros; apply neg_part_nonneg. }
    lra. }
  intros i j Hi Hj.
  pose proof (sumsq_zero n _ Hsq i j Hi Hj) as H0.
  unfold msub, np_zeros in H0. lra.
Qed.

Lemma neg_part_unique n w v w' v' :
  orthonormal n v -> orthonormal n v' ->
  mat_eq n (spectral n w v) (spectral n w' v') ->
  mat_eq n (spectral n (neg_part w) v) (spectral n (neg_part w') v').
Proof.
  intros Hv Hv' Heq i j Hi Hj.
  pose proof (pos_part_unique n w v w' v' Hv Hv' Heq i j Hi Hj) as HP.
  specialize (Heq i j Hi Hj).
  rewrite (spectral_split n w v), (spectral_split n w' v') in Heq. lra.
Qed.

(** ** The number of negative eigenvalues *)

Lemma count_negative_sum n w :
  INR (count_negative n w) = np_sum n (is_negative w).
Proof.
  induction n as [|n IH]; [reflexivity|].
  simpl count_negative. rewrite plus_INR, IH. simpl. unfold is_negative.
  destruct (Rlt_dec (w n) 0); simpl; lra.
Qed.

Lemma count_negative_le n w : (count_negative n w <= n)%nat.
Proof.
  induction n as [|n IH]; simpl; [lia|].
  destruct (Rlt_dec (w n) 0); lia.
Qed.

Lemma mulv_ext n A B x i :
  mat_eq n A B -> (i < n)%nat -> mulv n A x i = mulv n B x i.
Proof.
  intros H Hi. unfold mulv. apply np_sum_ext; intros j Hj.
  rewrite (H i j Hi Hj). reflexivity.
Qed.

Lemma dotv_ext n x y y' :
  (forall i, (i < n)%nat -> y i = y' i) -> dotv n x y = dotv n x y'.
Proof.
  intros H. unfold dotv. apply np_sum_ext; intros i Hi.
  rewrite (H i Hi). reflexivity.
Qed.

Lemma mulv_spectral_col n c v k i :
  orthonormal n v -> (k < n)%nat ->
  mulv n (spectral n c v) (col v k) i = c k * v i k.
Proof.
  intros Hv Hk. rewrite mulv_spectral.
  rewrite (np_sum_ext n _ (fun l => if Nat.eqb l k then c l * v i l else 0)).
  - apply (np_sum_delta_r n k (fun l => c l * v i l) Hk).
  - intros l Hl. rewrite (dotv_orthonormal n v l k Hv Hl Hk).
    destruct (Nat.eqb l k); lra.
Qed.

Lemma dotv_mulv_spectral n c v x p :
  orthonormal n v -> (p < n)%nat ->
  dotv n (col v p) (mulv n (spectral n c v) x)
  = c p * dotv n (col v p) x.
Proof.
  intros Hv Hp. unfold dotv at 1.
  rewrite (np_sum_ext n _
    (fun i => np_sum n
       (fun k => c k * dotv n (col v k) x * (col v p i * col v k i)))).
  - rewrite np_sum_swap.
    rewrite (np_sum_ext n _
      (fun k => if Nat.eqb p k then c k * dotv n (col v k) x else 0)).
    + apply (np_sum_delta n p (fun k => c k * dotv n (col v k) x) Hp).
    + intros k Hk. rewrite np_sum_scal.
      change (np_sum n (fun i => col v p i * col v k i))
        with (dotv n (col v p) (col v k)).
      rewrite (dotv_orthonormal n v p k Hv Hp Hk).
      destruct (Nat.eqb p k); lra.
  - intros i _. rewrite mulv_spectral, <- np_sum_scal.
    apply np_sum_ext; intros k _. unfold col. lra.
Qed.

(** An eigenvector of one form for a negative eigenvalue has all its weight
    on the negative eigenvectors of the other form. *)
Lemma negative_col_weight n w v w' v' k :
  orthonormal n v -> orthonormal n v' ->
  mat_eq n (spectral n w v) (spectral n w' v') ->
  (k < n)%nat -> w k < 0 ->
  quad n (spectral n (is_negative w') v') (col v k) = 1.
Proof.
  intros Hv Hv' Heq Hk Hneg.
  pose proof (neg_part_unique n w v w' v' Hv Hv' Heq) as HN.
  set (N := spectral n (neg_part w) v) in *.
  set (N' := spectral n (neg_part w') v') in *.
  set (lam := neg_part w k).
  assert (Hlam : lam = - w k).
  { unfold lam, neg_part, Rmax. destruct (Rle_dec (- w k) 0); lra. }
  set (a := fun m => dotv n (col v' m) (col v k)).
  assert (Hcoef : forall p, (p < n)%nat -> lam * a p = neg_part w' p * a p).
  { intros p Hp. unfold a.
    rewrite <- (dotv_mulv_spectral n (neg_part w') v' (col v k) p Hv' Hp).
    fold N'.
    rewrite (dotv_ext n _ (mulv n N' (col v k)) (fun i => lam * col v k i)).
    - unfold dotv. rewrite <- np_sum_scal.
      apply np_sum_ext; intros i _. lra.
    - intros i Hi. rewrite <- (mulv_ext n N N' _ i HN Hi).
      unfold N. rewrite (mulv_spectral_col n _ v k i Hv Hk). reflexivity. }
  assert (Hmass : np_sum n (fun m => neg_part w' m * (a m * a m)) = lam).
  { unfold a. rewrite <- (quad_spectral n (neg_part w') v' (col v k)).
    fold N'.
    rewrite <- (quad_ext n N N' _ HN). unfold N.
    apply (quad_spectral_col n (neg_part w) v k Hv Hk). }
  rewrite quad_spectral. fold a.
  rewrite (np_sum_ext n _ (fun m => / lam * (neg_part w' m * (a m * a m)))).
  - rewrite np_sum_scal, Hmass. field. lra.
  - intros m Hm. specialize (Hcoef m Hm). cbv beta.
    change (dotv n (col v' m) (col v k)) with (a m).
    assert (Hcase : a m = 0 \/ neg_part w' m = lam).
    { destruct (Req_dec (a m) 0) as [H0|Hn0]; [left; exact H0|right].
      apply (Rmult_eq_reg_r (a m)); [symmetry; exact Hcoef|exact Hn0]. }
    destruct Hcase as [H0 | Hl].
    + rewrite H0. lra.
    + rewrite Hl. unfold is_negative.
      destruct (Rlt_dec (w' m) 0) as [Hlt|Hge].
      * field. lra.
      * exfalso. unfold neg_part, Rmax in Hl.
        destruct (Rle_dec (- w' m) 0); lra.
Qed.

Lemma count_negative_inner n w v w' v' :
  orthonormal n v -> orthonormal n v' ->
  mat_eq n (spectral n w v) (spectral n w' v') ->
  INR (count_negative n w)
  = inner n (spectral n (is_negative w) v) (spectral n (is_negative w') v').
Proof.
  intros Hv Hv' Heq. rewrite count_negative_sum, inner_spectral.
  apply np_sum_ext; intros k Hk. unfold is_negative at 1 2.
  destruct (Rlt_dec (w k) 0) as [Hneg|_]; [|lra].
  rewrite (negative_col_weight n w v w' v' k Hv Hv' Heq Hk Hneg). lra.
Qed.

(** Inertia: two orthonormal spectral forms of one matrix have the same
    number of negative coefficients. *)
Lemma count_negative_unique n w v w' v' :
  orthonormal n v -> orthonormal n v' ->
  mat_eq n (spectral n w v) (spectral n w' v') ->
  count_negative n w = count_negative n w'.
Proof.
  intros Hv Hv' Heq. apply INR_eq.
  rewrite (count_negative_inner n w v w' v' Hv Hv' Heq).
  rewrite (count_negative_inner n w' v' w v Hv' Hv).
  - apply inner_sym.
  - intros i j Hi Hj. symmetry. apply Heq; assumption.
Qed.

(** ** Counting in an ascending sequence *)

Lemma count_negative_all n w :
  (forall m, (m < n)%nat -> w m < 0) -> count_negative n w = n.
Proof.
  induction n as [|n IH]; intros H; simpl; [reflexivity|].
  rewrite IH by (intros; apply H; lia).
  destruct (Rlt_dec (w n) 0) as [_|Hn]; [lia|].
  exfalso. apply Hn, H. lia.
Qed.

Lemma count_negative_none n w :
  (forall m, (m < n)%nat -> ~ w m < 0) -> count_negative n w = 0%nat.
Proof.
  induction n as [|n IH]; intros H; simpl; [reflexivity|].
  rewrite IH by (intros; apply H; lia).
  destruct (Rlt_dec (w n) 0) as [Hn|_]; [|lia].
  exfalso. apply (H n); [lia|exact Hn].
Qed.

Lemma ascending_shorter n w : ascending (S n) w -> ascending n w.
Proof. intros H i j Hij Hj. apply H; lia. Qed.

Lemma ascending_count_low n w :
  ascending n w ->
  forall m, (m < n)%nat -> (w m < 0 <-> (m < count_negative n w)%nat).
Proof.
  induction n as [|n IH]; intros Hasc m Hm; [lia|].
  simpl. destruct (Rlt_dec (w n) 0) as [Hneg|Hpos].
  - assert (Hall : forall p, (p < S n)%nat -> w p < 0).
    { intros p Hp. assert (w p <= w n) by (apply Hasc; lia). lra. }
    rewrite (count_negative_all n w) by (intros; apply Hall; lia).
    split; intros _; [lia|apply Hall; exact Hm].
  - rewrite Nat.add_0_r.
    destruct (Nat.eq_dec m n) as [->|Hne].
    + pose proof (count_negative_le n w). split; [intros; lra|lia].
    + apply IH; [apply ascending_shorter; exact Hasc|lia].
Qed.

Lemma ascending_count_high n w :
  ascending n w ->
  forall m, (m < n)%nat ->
    (0 < w m <-> (n - count_negative n (fun k => - w k) <= m)%nat).
Proof.
  induction n as [|n IH]; intros Hasc m Hm; [lia|].
  cbn [count_negative]. destruct (Rlt_dec (- w n) 0) as [Hpos|Hneg].
  - pose proof (count_negative_le n (fun k => - w k)) as Hle.
    destruct (Nat.eq_dec m n) as [->|Hne].
    + split; [intros; lia|intros; lra].
    + rewrite (IH (ascending_shorter n w Hasc) m) by lia. lia.
  - assert (Hall : forall p, (p < S n)%nat -> ~ - w p < 0).
    { intros p Hp. assert (w p <= w n) by (apply Hasc; lia). lra. }
    rewrite (count_negative_none n (fun k => - w k))
      by (intros; apply Hall; lia).
    specialize (Hall m Hm). split; [intros; lra|lia].
Qed.

Lemma np_sum_from lo m (f : vec) :
  np_sum m (fun j => f (lo + j)%nat)
  = np_sum (lo + m) (fun k => if (lo <=? k)%nat then f k else 0).
Proof.
  induction m as [|m IH].
  - rewrite Nat.add_0_r. simpl. symmetry. apply np_sum_zero.
    intros k Hk. destruct (Nat.leb_spec lo k); [lia|reflexivity].
  - rewrite Nat.add_succ_r. simpl. rewrite IH.
    destruct (Nat.leb_spec lo (lo + m)); [reflexivity|lia].
Qed.

(** ** The semi-definite projector against the spectral form *)

Lemma eig_decomp_spectral n A w v :
  eig_decomp n A w v -> mat_eq n A (spectral n w v).
Proof.
  intros (_ & _ & H) i j Hi Hj. rewrite (H i j Hi Hj).
  apply reconstruct_entry.
Qed.

Lemma eig_decomp_agree n A w v w' v' :
  eig_decomp n A w v -> eig_decomp n A w' v' ->
  mat_eq n (spectral n w v) (spectral n w' v').
Proof.
  intros H H' i j Hi Hj.
  rewrite <- (eig_decomp_spectral n A w v H i j Hi Hj).
  apply (eig_decomp_spectral n A w' v' H' i j Hi Hj).
Qed.

Lemma eig_decomp_orthonormal n A w v : eig_decomp n A w v -> orthonormal n v.
Proof. intros (_ & H & _). exact H. Qed.

Lemma eig_decomp_ascending n A w v : eig_decomp n A w v -> ascending n w.
Proof. intros (H & _). exact H. Qed.

(** The eigenpairs [k .. n-1] of a decomposition with [k] negative
    eigenvalues rebuild the positive part. *)
Lemma rebuild_upper_range n k w v w' v' :
  ascending n w -> count_negative n w = k -> (k <= n)%nat ->
  (forall j, (j < n - k)%nat -> w' j = w (k + j)%nat) ->
  (forall i j, (i < n)%nat -> (j < n - k)%nat -> v' i j = v i (k + j)%nat) ->
  mat_eq n (reconstruct (n - k) w' v') (spectral n (pos_part w) v).
Proof.
  intros Hasc Hcount Hk Hw Hv i i' Hi Hi'.
  rewrite reconstruct_entry.
  rewrite (np_sum_ext (n - k) _
    (fun j => (fun m => w m * v i m * v i' m) (k + j)%nat)).
  - rewrite (np_sum_from k (n - k) (fun m => w m * v i m * v i' m)).
    replace (k + (n - k))%nat with n by lia.
    unfold spectral. apply np_sum_ext; intros m Hm.
    pose proof (ascending_count_low n w Hasc m Hm) as Hlow.
    rewrite Hcount in Hlow. unfold pos_part, Rmax.
    destruct (Nat.leb_spec k m), (Rle_dec (w m) 0); try lra.
    + assert (~ w m < 0) by (intros Hlt; apply Hlow in Hlt; lia).
      assert (w m = 0) by lra. nra.
    + assert (w m < 0) by (apply Hlow; lia). lra.
  - intros j Hj. cbv beta.
    rewrite (Hw j Hj), (Hv i j Hi Hj), (Hv i' j Hi' Hj). reflexivity.
Qed.

(** The eigenpairs [n-k .. n-1] of a decomposition of [-Y] with [k]
    positive eigenvalues rebuild the negative part of [Y]. *)
Lemma rebuild_negative_range n k w v w' v' :
  ascending n w -> count_negative n (fun m => - w m) = k -> (k <= n)%nat ->
  (forall j, (j < k)%nat -> w' j = w (n - k + j)%nat) ->
  (forall i j, (i < n)%nat -> (j < k)%nat -> v' i j = v i (n - k + j)%nat) ->
  mat_eq n (reconstruct k w' v')
           (spectral n (neg_part (fun m => - w m)) v).
Proof.
  intros Hasc Hcount Hk Hw Hv i i' Hi Hi'.
  rewrite reconstruct_entry.
  rewrite (np_sum_ext k _
    (fun j => (fun m => w m * v i m * v i' m) (n - k + j)%nat)).
  - rewrite (np_sum_from (n - k) k (fun m => w m * v i m * v i' m)).
    replace (n - k + k)%nat with n by lia.
    unfold spectral. apply np_sum_ext; intros m Hm.
    pose proof (ascending_count_high n w Hasc m Hm) as Hhigh.
    rewrite Hcount in Hhigh. unfold neg_part, Rmax.
    destruct (Nat.leb_spec (n - k) m), (Rle_dec (- - w m) 0); try lra.
    + assert (0 < w m) by (apply Hhigh; lia). lra.
    + assert (~ 0 < w m) by (intros Hlt; apply Hhigh in Hlt; lia). lra.
  - intros j Hj. cbv beta.
    rewrite (Hw j Hj), (Hv i j Hi Hj), (Hv i' j Hi' Hj). reflexivity.
Qed.

Lemma proj_Snp_imp_branches E n Y :
  let k := n_val_neg E n Y in
  proj_Snp_imp E n Y
  = if Nat.eqb k 0 then Y
    else if Nat.eqb k n then np_zeros
    else if Nat.ltb k (n - k) then branch_add_back E n Y k
    else branch_rebuild E n Y k.
Proof. reflexivity. Qed.

Lemma mneg_spectral n Y w v :
  mat_eq n (- Y)%M (spectral n w v) ->
  mat_eq n Y (spectral n (fun m => - w m) v).
Proof.
  intros H i j Hi Hj. specialize (H i j Hi Hj). unfold mneg in H.
  unfold spectral in *. rewrite (np_sum_ext n _
    (fun k => -1 * (w k * v i k * v j k))) by (intros; lra).
  rewrite np_sum_scal. lra.
Qed.

Section Projector.

Variable E : eigh_solver.
Variable n : nat.
Variable Y : mat.

(** Some decomposition of [Y], whichever: the results below do not depend
    on the eigenvectors it holds. *)
Variables (w : vec) (v : mat).
Hypothesis Hdecomp : eig_decomp n Y w v.

Hypothesis Hsolver : eigh_correct_at E n Y.
Hypothesis Hsolver_neg : eigh_correct_at E n (- Y)%M.

Lemma count_negative_solver : count_negative n w = n_val_neg E n Y.
Proof.
  destruct Hsolver as ((v0 & H0) & _). unfold n_val_neg.
  apply (count_negative_unique n w v (eigh_vals E n Y) v0).
  - apply (eig_decomp_orthonormal n Y w v Hdecomp).
  - apply (eig_decomp_orthonormal n Y _ v0 H0).
  - apply (eig_decomp_agree n Y); assumption.
Qed.

Lemma branch_rebuild_pos_part :
  (0 < n_val_neg E n Y < n)%nat ->
  mat_eq n (branch_rebuild E n Y (n_val_neg E n Y))
           (spectral n (pos_part w) v).
Proof.
  intros Hk. unfold branch_rebuild.
  pose proof count_negative_solver as Hcount_w.
  set (k := n_val_neg E n Y) in *.
  destruct Hsolver as (_ & Hrange & _).
  destruct (Hrange k (n - 1)%nat) as (w2 & v2 & H2 & Hw & Hv); [lia|lia|].
  destruct (eigh_range E n Y k (n - 1)) as [w' v']. simpl in Hw, Hv.
  replace (n - 1 + 1 - k)%nat with (n - k)%nat in * by lia.
  intros i j Hi Hj.
  rewrite (rebuild_upper_range n k w2 v2 w' v'); try assumption; try lia.
  - apply (pos_part_unique n w2 v2 w v); try assumption.
    + apply (eig_decomp_orthonormal n Y w2 v2 H2).
    + apply (eig_decomp_orthonormal n Y w v Hdecomp).
    + apply (eig_decomp_agree n Y); assumption.
  - apply (eig_decomp_ascending n Y w2 v2 H2).
  - rewrite <- Hcount_w.
    apply (count_negative_unique n w2 v2 w v).
    + apply (eig_decomp_orthonormal n Y w2 v2 H2).
    + apply (eig_decomp_orthonormal n Y w v Hdecomp).
    + apply (eig_decomp_agree n Y); assumption.
Qed.

Lemma branch_add_back_pos_part :
  (0 < n_val_neg E n Y < n)%nat ->
  mat_eq n (branch_add_back E n Y (n_val_neg E n Y))
           (spectral n (pos_part w) v).
Proof.
  intros Hk. unfold branch_add_back.
  pose proof count_negative_solver as Hcount_w.
  set (k := n_val_neg E n Y) in *.
  destruct Hsolver_neg as (_ & Hrange & _).
  destruct (Hrange (n - k)%nat (n - 1)%nat) as (w3 & v3 & H3 & Hw & Hv);
    [lia|lia|].
  destruct (eigh_range E n (- Y)%M (n - k) (n - 1)) as [w' v'].
  simpl in Hw, Hv.
  replace (n - 1 + 1 - (n - k))%nat with k in * by lia.
  pose proof (mneg_spectral n Y w3 v3 (eig_decomp_spectral n _ w3 v3 H3))
    as HY.
  pose proof (eig_decomp_orthonormal n _ w3 v3 H3) as Ho3.
  pose proof (eig_decomp_orthonormal n Y w v Hdecomp) as Ho.
  assert (Hagree : mat_eq n (spectral n (fun m => - w3 m) v3)
                            (spectral n w v)).
  { intros i j Hi Hj. rewrite <- (HY i j Hi Hj).
    apply (eig_decomp_spectral n Y w v Hdecomp i j Hi Hj). }
  assert (Hcount : count_negative n (fun m => - w3 m) = k).
  { rewrite <- Hcount_w.
    apply (count_negative_unique n _ v3 w v Ho3 Ho Hagree). }
  intros i j Hi Hj. unfold madd.
  rewrite (rebuild_negative_range n k w3 v3 w' v'); try assumption; try lia.
  - rewrite (HY i j Hi Hj).
    rewrite (spectral_split n (fun m => - w3 m) v3 i j).
    rewrite <- (pos_part_unique n _ v3 w v Ho3 Ho Hagree i j Hi Hj). lra.
  - apply (eig_decomp_ascending n _ w3 v3 H3).
Qed.

Lemma proj_Snp_imp_pos_part :
  mat_eq n (proj_Snp_imp E n Y) (spectral n (pos_part w) v).
Proof.
  rewrite proj_Snp_imp_branches.
  pose proof (count_negative_le n (eigh_vals E n Y)) as Hle.
  pose proof (ascending_count_low n w (eig_decomp_ascending n Y w v Hdecomp))
    as Hlow.
  rewrite count_negative_solver in Hlow.
  pose proof branch_add_back_pos_part as Hadd.
  pose proof branch_rebuild_pos_part as Hreb.
  fold (n_val_neg E n Y) in Hle.
  set (k := n_val_neg E n Y) in *.
  destruct (Nat.eqb_spec k 0) as [H0|H0].
  - intros i j Hi Hj.
    rewrite (eig_decomp_spectral n Y w v Hdecomp i j Hi Hj).
    apply spectral_ext. intros m Hm. unfold pos_part, Rmax.
    destruct (Rle_dec (w m) 0) as [Hneg|]; [|reflexivity].
    assert (~ w m < 0) by (intros Hlt; apply (Hlow m Hm) in Hlt; lia).
    lra.
  - destruct (Nat.eqb_spec k n) as [Hn|Hn].
    + intros i j Hi Hj. unfold np_zeros, spectral. symmetry.
      apply np_sum_zero. intros m Hm. unfold pos_part, Rmax.
      assert (w m < 0) by (apply (Hlow m Hm); lia).
      destruct (Rle_dec (w m) 0); lra.
    + destruct (Nat.ltb k (n - k)).
      * apply Hadd. lia.
      * apply Hreb. lia.
Qed.

Lemma proj_Snp_imp_symmetric : symmetric n (proj_Snp_imp E n Y).
Proof.
  intros i j Hi Hj.
  rewrite (proj_Snp_imp_pos_part i j Hi Hj), (proj_Snp_imp_pos_part j i Hj Hi).
  apply spectral_symmetric.
Qed.

Lemma proj_Snp_imp_psd : psd n (proj_Snp_imp E n Y).
Proof.
  intros x. rewrite (quad_ext n _ _ x proj_Snp_imp_pos_part).
  apply spectral_psd. intros; apply pos_part_nonneg.
Qed.

Lemma proj_Snp_imp_nearest B :
  psd n B ->
  np_linalg_norm n (Y - proj_Snp_imp E n Y)%M <= np_linalg_norm n (Y - B)%M.
Proof.
  intros HB. unfold np_linalg_norm. apply sqrt_le_1_alt.
  set (P := spectral n (pos_part w) v).
  set (N := spectral n (neg_part w) v).
  pose proof (eig_decomp_orthonormal n Y w v Hdecomp) as Ho.
  assert (HYP : mat_eq n (Y - proj_Snp_imp E n Y)%M (np_zeros - N)%M).
  { intros i j Hi Hj. unfold msub, np_zeros.
    rewrite (proj_Snp_imp_pos_part i j Hi Hj).
    rewrite (eig_decomp_spectral n Y w v Hdecomp i j Hi Hj).
    rewrite (spectral_split n w v i j). unfold N. lra. }
  assert (HYB : mat_eq n (Y - B)%M ((np_zeros - N) + (P - B))%M).
  { intros i j Hi Hj. unfold msub, madd, np_zeros.
    rewrite (eig_decomp_spectral n Y w v Hdecomp i j Hi Hj).
    rewrite (spectral_split n w v i j). unfold N, P. lra. }
  rewrite (sumsq_ext n _ _ HYP), (sumsq_ext n _ _ HYB), sumsq_plus.
  assert (Hcross : 0 <= inner n (np_zeros - N)%M (P - B)%M).
  { rewrite inner_minus_l, !inner_minus_r.
    assert (Z1 : inner n np_zeros P = 0)
      by (apply np_sum_zero; intros; apply np_sum_zero; intros;
          unfold np_zeros; lra).
    assert (Z2 : inner n np_zeros B = 0)
      by (apply np_sum_zero; intros; apply np_sum_zero; intros;
          unfold np_zeros; lra).
    assert (Z3 : inner n N P = 0).
    { rewrite inner_sym. apply inner_pos_neg. exact Ho. }
    assert (Z4 : 0 <= inner n N B).
    { apply inner_spectral_psd; [intros; apply neg_part_nonneg|exact HB]. }
    lra. }
  pose proof (sumsq_nonneg n (P - B)%M). lra.
Qed.

End Projector.

(** ** The 2 x 2 eigen-solver is correct *)

Section Eigh2.

Variable M : mat.

Lemma eigh2_radius_nonneg : 0 <= eigh2_radius M.
Proof. apply sqrt_pos. Qed.

Lemma eigh2_radius_square :
  eigh2_radius M * eigh2_radius M
  = eigh2_half_gap M * eigh2_half_gap M + M O 1%nat * M O 1%nat.
Proof. unfold eigh2_radius. apply sqrt_sqrt. nra. Qed.

Lemma eigh2_angle :
  eigh2_cos M * eigh2_cos M + eigh2_sin M * eigh2_sin M = 1 /\
  eigh2_radius M * (eigh2_cos M * eigh2_cos M - eigh2_sin M * eigh2_sin M)
  = eigh2_half_gap M /\
  2 * eigh2_radius M * (eigh2_cos M * eigh2_sin M) = M O 1%nat.
Proof.
  pose proof eigh2_radius_nonneg as Hr.
  pose proof eigh2_radius_square as Hrr.
  unfold eigh2_cos, eigh2_sin.
  set (r := eigh2_radius M) in *. set (d := eigh2_half_gap M) in *.
  set (b := M O 1%nat) in *.
  destruct (Req_dec_T r 0) as [H0|Hn0].
  - rewrite H0 in *. assert (d = 0) by nra. assert (b = 0) by nra. lra.
  - assert (Hpos : 0 < r) by lra.
    assert (Hd : -1 <= d / r <= 1).
    { split.
      - apply (Rmult_le_reg_r r); [exact Hpos|].
        unfold Rdiv. rewrite Rmult_assoc, Rinv_l by exact Hn0. nra.
      - apply (Rmult_le_reg_r r); [exact Hpos|].
        unfold Rdiv. rewrite Rmult_assoc, Rinv_l by exact Hn0. nra. }
    set (x := (1 + d / r) / 2). set (y := (1 - d / r) / 2).
    assert (Hx : 0 <= x) by (unfold x; lra).
    assert (Hy : 0 <= y) by (unfold y; lra).
    pose proof (sqrt_sqrt x Hx) as Sx. pose proof (sqrt_sqrt y Hy) as Sy.
    set (g := if Rlt_dec b 0 then -1 else 1).
    assert (Hg : g * g = 1) by (unfold g; destruct (Rlt_dec b 0); lra).
    assert (Hgb : g * Rabs b = b).
    { unfold g, Rabs. destruct (Rlt_dec b 0), (Rcase_abs b); lra. }
    assert (Hxy : sqrt x * sqrt y = Rabs b / (2 * r)).
    { rewrite <- sqrt_mult by assumption.
      replace (x * y) with ((Rabs b / (2 * r)) * (Rabs b / (2 * r))).
      - apply sqrt_square. apply Rmult_le_pos; [apply Rabs_pos|].
        apply Rlt_le, Rinv_0_lt_compat. lra.
      - unfold x, y.
        replace (Rabs b / (2 * r) * (Rabs b / (2 * r)))
          with ((Rabs b * Rabs b) / (4 * (r * r))) by (field; exact Hn0).
        replace (Rabs b * Rabs b) with (b * b)
          by (unfold Rabs; destruct (Rcase_abs b); lra).
        replace (b * b) with (r * r - d * d) by lra.
        field. exact Hn0. }
    split; [|split].
    + replace (g * sqrt y * (g * sqrt y))
        with ((g * g) * (sqrt y * sqrt y)) by ring.
      rewrite Hg, Sx, Sy. unfold x, y. lra.
    + replace (g * sqrt y * (g * sqrt y))
        with ((g * g) * (sqrt y * sqrt y)) by ring.
      rewrite Hg, Sx, Sy. unfold x, y. field. exact Hn0.
    + replace (2 * r * (sqrt x * (g * sqrt y)))
        with (2 * r * g * (sqrt x * sqrt y)) by ring.
      rewrite Hxy. rewrite <- Hgb at 2. field. exact Hn0.
Qed.

Lemma eigh2_ascending : ascending 2 (eigh2_w M).
Proof.
  pose proof eigh2_radius_nonneg as Hr.
  intros i j Hij Hj. unfold eigh2_w.
  destruct i as [|i], j as [|j]; try lia; lra.
Qed.

Lemma eigh2_orthonormal : orthonormal 2 (eigh2_v M).
Proof.
  destruct eigh2_angle as (H1 & _).
  intros p q Hp Hq. unfold eigh2_v.
  destruct p as [|[|p]], q as [|[|q]]; try lia; simpl; nra.
Qed.

Lemma eigh2_reconstructs :
  symmetric 2 M -> mat_eq 2 M (reconstruct 2 (eigh2_w M) (eigh2_v M)).
Proof.
  intros Hsym.
  destruct eigh2_angle as (H1 & H2 & H3).
  assert (Hb : M 1%nat O = M O 1%nat) by (apply Hsym; lia).
  assert (Ha : M O O = eigh2_mean M + eigh2_half_gap M)
    by (unfold eigh2_mean, eigh2_half_gap; lra).
  assert (Hc : M 1%nat 1%nat = eigh2_mean M - eigh2_half_gap M)
    by (unfold eigh2_mean, eigh2_half_gap; lra).
  intros i j Hi Hj. rewrite reconstruct_entry.
  unfold eigh2_w, eigh2_v.
  set (m := eigh2_mean M) in *. set (r := eigh2_radius M) in *.
  set (c := eigh2_cos M) in *. set (s := eigh2_sin M) in *.
  destruct i as [|[|i]], j as [|[|j]]; try lia; simpl.
  - rewrite Ha.
    replace (0 + (m - r) * - s * - s + (m + r) * c * c)
      with (m * (c * c + s * s) + r * (c * c - s * s)) by ring.
    rewrite H1, H2. lra.
  - replace (0 + (m - r) * - s * c + (m + r) * c * s)
      with (2 * r * (c * s)) by ring.
    rewrite H3. reflexivity.
  - rewrite Hb.
    replace (0 + (m - r) * c * - s + (m + r) * s * c)
      with (2 * r * (c * s)) by ring.
    rewrite H3. reflexivity.
  - rewrite Hc.
    replace (0 + (m - r) * c * c + (m + r) * s * s)
      with (m * (c * c + s * s) - r * (c * c - s * s)) by ring.
    rewrite H1, H2. lra.
Qed.

Lemma eigh2_decomp :
  symmetric 2 M -> eig_decomp 2 M (eigh2_w M) (eigh2_v M).
Proof.
  intros Hsym. split; [exact eigh2_ascending|].
  split; [exact eigh2_orthonormal|exact (eigh2_reconstructs Hsym)].
Qed.

End Eigh2.

Lemma eigh2_correct : eigh_correct eigh2 2.
Proof.
  intros A HA. pose proof (eigh2_decomp A HA) as H.
  split; [exists (eigh2_v A); exact H|].
  split; [|exact H].
  intros lo hi _ _. exists (eigh2_w A), (eigh2_v A).
  split; [exact H|]. split; intros; reflexivity.
Qed.

(** ** The semi-definite projector against the naive reference *)

Lemma proj_Snp_naive_entry E n Y i j :
  proj_Snp_naive E n Y i j
  = spectral n (pos_part (fst (eigh_full E n Y))) (snd (eigh_full E n Y)) i j.
Proof.
  unfold proj_Snp_naive. destruct (eigh_full E n Y) as [wF vF]. simpl.
  apply reconstruct_entry.
Qed.

(** C3.  Where the eigen-solver is right on [Y] and on [-Y] (which makes [Y]
    symmetric), [proj_Snp_imp Y] is the matrix that the naive route gives:
    a full eigendecomposition of [Y], negative eigenvalues replaced by zero,
    the matrix rebuilt.  Each of the two rebuilding branches gives that
    same matrix; with no negative eigenvalue the input itself is returned,
    with only negative eigenvalues the zero matrix; and the result is
    symmetric, positive semi-definite and nearest to [Y] in Frobenius norm
    among the positive semi-definite matrices. *)
Theorem proj_Snp_imp_refines_naive E (n : nat) (Y : mat) :
  eigh_correct_at E n Y -> eigh_correct_at E n (- Y)%M ->
  let k := n_val_neg E n Y in
  mat_eq n (proj_Snp_imp E n Y) (proj_Snp_naive E n Y) /\
  ((0 < k < n)%nat ->
     mat_eq n (branch_add_back E n Y k) (proj_Snp_naive E n Y) /\
     mat_eq n (branch_rebuild E n Y k) (proj_Snp_naive E n Y)) /\
  (k = 0%nat -> proj_Snp_imp E n Y = Y) /\
  (k = n -> (0 < n)%nat -> proj_Snp_imp E n Y = np_zeros) /\
  symmetric n (proj_Snp_imp E n Y) /\
  psd n (proj_Snp_imp E n Y) /\
  (forall B, psd n B ->
     np_linalg_norm n (Y - proj_Snp_imp E n Y)%M
     <= np_linalg_norm n (Y - B)%M).
Proof.
  intros HY HnY k.
  pose proof HY as (_ & _ & HF).
  set (wF := fst (eigh_full E n Y)) in *.
  set (vF := snd (eigh_full E n Y)) in *.
  split.
  { intros i j Hi Hj. rewrite proj_Snp_naive_entry.
    apply (proj_Snp_imp_pos_part E n Y wF vF HF HY HnY i j Hi Hj). }
  split.
  { intros Hk. split; intros i j Hi Hj; rewrite proj_Snp_naive_entry.
    - apply (branch_add_back_pos_part E n Y wF vF HF HY HnY Hk i j Hi Hj).
    - apply (branch_rebuild_pos_part E n Y wF vF HF HY Hk i j Hi Hj). }
  split.
  { intros H0. rewrite proj_Snp_imp_branches. fold k. rewrite H0.
    reflexivity. }
  split.
  { intros Hn Hpos. rewrite proj_Snp_imp_branches. fold k. rewrite Hn.
    destruct (Nat.eqb_spec n 0) as [Hz|_]; [lia|].
    rewrite Nat.eqb_refl. reflexivity. }
  split; [apply (proj_Snp_imp_symmetric E n Y wF vF HF HY HnY)|].
  split; [apply (proj_Snp_imp_psd E n Y wF vF HF HY HnY)|].
  intros B HB. apply (proj_Snp_imp_nearest E n Y wF vF HF HY HnY B HB).
Qed.

Lemma np_identity_symmetric n : symmetric n np_identity.
Proof.
  intros i j _ _. unfold np_identity. rewrite Nat.eqb_sym. reflexivity.
Qed.

Lemma np_zeros_symmetric n : symmetric n np_zeros.
Proof. intros i j _ _. reflexivity. Qed.

Lemma Y_swap_symmetric n : symmetric n Y_swap.
Proof.
  intros i j _ _. unfold Y_swap. rewrite Nat.eqb_sym. reflexivity.
Qed.

Lemma proj_Snp_imp_refines_naive_witness :
  mat_eq 2 (proj_Snp_imp eigh2 2 Y_swap) (proj_Snp_naive eigh2 2 Y_swap) /\
  psd 2 (proj_Snp_imp eigh2 2 Y_swap).
Proof.
  assert (H1 : eigh_correct_at eigh2 2 Y_swap)
    by (apply eigh2_correct, Y_swap_symmetric).
  assert (H2 : eigh_correct_at eigh2 2 (- Y_swap)%M)
    by (apply eigh2_correct, mneg_symmetric, Y_swap_symmetric).
  destruct (proj_Snp_imp_refines_naive eigh2 2 Y_swap H1 H2)
    as (Hnaive & _ & _ & _ & _ & Hpsd & _).
  split; assumption.
Defined.

(** ** The solver returns a symmetric positive semi-definite matrix *)

Lemma state_symmetric_init n : state_symmetric n admm_init.
Proof.
  unfold state_symmetric. simpl.
  repeat split;
    try apply np_identity_symmetric; try apply np_zeros_symmetric.
  apply mdiv_symmetric.
  repeat apply madd_symmetric; apply np_identity_symmetric.
Qed.

Lemma state_symmetric_body E n Rd K rho s :
  eigh_correct E n -> symmetric n Rd -> state_symmetric n s ->
  state_symmetric n (admm_body E n Rd K rho s)
  /\ psd n (st_Z (admm_body E n Rd K rho s)).
Proof.
  intros HE HR (HX & HY & HZ & HU & HV & HW & HXbar).
  assert (HA : symmetric n (st_Xbar s - st_W s)%M)
    by (apply msub_symmetric; assumption).
  pose proof (HE _ HA) as Hat.
  pose proof (HE _ (mneg_symmetric n _ HA)) as Hneg.
  pose proof Hat as (_ & _ & HF).
  pose proof (proj_Snp_imp_symmetric E n _ _ _ HF Hat Hneg) as HZ'.
  pose proof (proj_Snp_imp_psd E n _ _ _ HF Hat Hneg) as HZp.
  split; [|exact HZp].
  assert (HX' : symmetric n (st_X (admm_body E n Rd K rho s))).
  { simpl. apply Hsymmetric_symmetric, madd_symmetric.
    - apply msub_symmetric; assumption.
    - apply mdiv_symmetric; exact HR. }
  assert (HY' : symmetric n (st_Y (admm_body E n Rd K rho s))).
  { simpl. apply proj_positive_symmetric, msub_symmetric; assumption. }
  assert (HXbar' : symmetric n (st_Xbar (admm_body E n Rd K rho s))).
  { simpl in *. apply mdiv_symmetric.
    apply madd_symmetric; [apply madd_symmetric|]; assumption. }
  simpl in HX', HY', HXbar'.
  unfold state_symmetric. simpl.
  split; [exact HX'|]. split; [exact HY'|]. split; [exact HZ'|].
  split; [|split; [|split]].
  - apply msub_symmetric; [apply madd_symmetric|]; assumption.
  - apply msub_symmetric; [apply madd_symmetric|]; assumption.
  - apply msub_symmetric; [apply madd_symmetric|]; assumption.
  - exact HXbar'.
Qed.

(** A positive semi-definite matrix has no negative eigenvalue, whatever
    the decomposition the eigenvalues are read from. *)
Lemma psd_eigenvalues_nonneg n A w v :
  psd n A -> eig_decomp n A w v ->
  forall k, (k < n)%nat -> 0 <= w k.
Proof.
  intros HA Hd k Hk.
  rewrite <- (quad_spectral_col n w v k
                (eig_decomp_orthonormal n A w v Hd) Hk).
  rewrite <- (quad_ext n A _ (col v k) (eig_decomp_spectral n A w v Hd)).
  apply HA.
Qed.

(** C1.  For a symmetric input of size [n >= 2], any [K], and a solver that
    is right on the symmetric matrices of size [n], a call with a budget of
    at least one pass returns a matrix [Z], the only value returned, that is
    symmetric and positive semi-definite: its quadratic form is nowhere
    negative, and no eigendecomposition of it has a negative eigenvalue. *)
Theorem pecok_admm_symmetric_psd E (n : nat) (Rd : mat) (K : R)
    (n_iter_max : nat) (rho : R) :
  eigh_correct E n -> (2 <= n)%nat -> symmetric n Rd ->
  (1 <= n_iter_max)%nat ->
  exists Z, pecok_admm E n Rd K n_iter_max rho = Returns Z /\
            symmetric n Z /\ psd n Z /\
            (forall w v, eig_decomp n Z w v ->
               forall k, (k < n)%nat -> 0 <= w k).
Proof.
  intros HE _ HR Hbudget.
  exists (st_Z (pecok_admm_state E n Rd K n_iter_max rho)).
  split; [apply pecok_admm_returns; lia|].
  cut (symmetric n (st_Z (pecok_admm_state E n Rd K n_iter_max rho)) /\
       psd n (st_Z (pecok_admm_state E n Rd K n_iter_max rho))).
  { intros [Hs Hp]. split; [exact Hs|]. split; [exact Hp|].
    intros w v Hd. apply (psd_eigenvalues_nonneg n _ w v Hp Hd). }
  unfold pecok_admm_state.
  set (Rn := (Rd / np_linalg_norm n Rd)%M).
  assert (HRn : symmetric n Rn) by (apply mdiv_symmetric; exact HR).
  destruct (admm_loop_passes E n Rn K rho n_iter_max admm_init)
    as (k & _ & Heq & Hk & _).
  rewrite Heq. destruct k as [|k]; [specialize (Hk Hbudget); lia|].
  simpl.
  assert (Hprev : state_symmetric n
                    (Nat.iter k (admm_body E n Rn K rho) admm_init)).
  { apply iter_body_invariant; [|apply state_symmetric_init].
    intros s Hs. apply (state_symmetric_body E n Rn K rho s HE HRn Hs). }
  destruct (state_symmetric_body E n Rn K rho _ HE HRn Hprev)
    as ((_ & _ & HZ & _) & Hpsd).
  split; assumption.
Qed.

Lemma pecok_admm_symmetric_psd_witness :
  exists Z, pecok_admm eigh2 2 np_identity 1 2 1 = Returns Z /\
            symmetric 2 Z /\ psd 2 Z /\
            (forall w v, eig_decomp 2 Z w v ->
               forall k, (k < 2)%nat -> 0 <= w k).
Proof.
  apply (pecok_admm_symmetric_psd eigh2 2 np_identity 1 2 1).
  - exact eigh2_correct.
  - lia.
  - apply np_identity_symmetric.
  - lia.
Defined.

(** ** The solver on 2 x 2 matrices of the form [[a, b], [b, a]] *)

Lemma circ_madd A B a b a' b' :
  circ A a b -> circ B a' b' -> circ (A + B)%M (a + a') (b + b').
Proof.
  intros (H1 & H2 & H3 & H4) (H1' & H2' & H3' & H4').
  unfold circ, madd. rewrite H1, H2, H3, H4, H1', H2', H3', H4'.
  repeat split.
Qed.

Lemma circ_msub A B a b a' b' :
  circ A a b -> circ B a' b' -> circ (A - B)%M (a - a') (b - b').
Proof.
  intros (H1 & H2 & H3 & H4) (H1' & H2' & H3' & H4').
  unfold circ, msub. rewrite H1, H2, H3, H4, H1', H2', H3', H4'.
  repeat split.
Qed.

Lemma circ_mdiv A a b c : circ A a b -> circ (A / c)%M (a / c) (b / c).
Proof.
  intros (H1 & H2 & H3 & H4).
  unfold circ, mdiv. rewrite H1, H2, H3, H4. repeat split.
Qed.

Lemma circ_identity : circ np_identity 1 0.
Proof. repeat split. Qed.

Lemma circ_zeros : circ np_zeros 0 0.
Proof. repeat split. Qed.

Lemma circ_sumsq M a b : circ M a b -> sumsq 2 M = 2 * (a * a) + 2 * (b * b).
Proof.
  intros (H1 & H2 & H3 & H4). unfold sumsq. simpl.
  rewrite H1, H2, H3, H4. ring.
Qed.

Lemma circ_Hsymmetric Y K a b :
  circ Y a b -> circ (proj_lin_Hsymmetric 2 Y K) (K / 2) (1 - K / 2).
Proof.
  intros (H1 & H2 & H3 & H4).
  unfold circ, proj_lin_Hsymmetric, msub.
  rewrite !operator_sym_entry. unfold np_sum_axis1, np_trace. simpl.
  rewrite H1, H2, H3, H4. repeat split; field.
Qed.

Lemma circ_proj_positive M a b :
  circ M a b -> 0 <= a -> 0 <= b -> circ (proj_positive M 0) a b.
Proof.
  intros (H1 & H2 & H3 & H4) Ha Hb.
  unfold circ.
  rewrite !proj_positive_above by lra.
  repeat split; assumption.
Qed.

Lemma eigh2_w_circ M a b :
  circ M a b -> 0 <= b ->
  eigh2_w M O = a - b /\ eigh2_w M 1%nat = a + b.
Proof.
  intros (H1 & H2 & H3 & H4) Hb.
  assert (Hr : eigh2_radius M = b).
  { unfold eigh2_radius, eigh2_half_gap. rewrite H1, H2, H3.
    replace ((a - a) / 2 * ((a - a) / 2) + b * b) with (b * b) by field.
    apply sqrt_square. exact Hb. }
  unfold eigh2_w, eigh2_mean. rewrite Hr, H1, H2. split; field.
Qed.

Lemma circ_proj_Snp_imp M a b :
  circ M a b -> 0 <= b -> b <= a -> proj_Snp_imp eigh2 2 M = M.
Proof.
  intros HM Hb Hab.
  destruct (eigh2_w_circ M a b HM Hb) as [Hw0 Hw1].
  rewrite proj_Snp_imp_branches.
  unfold n_val_neg. change (eigh_vals eigh2 2 M) with (eigh2_w M).
  rewrite (count_negative_none 2 (eigh2_w M)); [reflexivity|].
  intros m Hm. destruct m as [|[|m]]; [rewrite Hw0|rewrite Hw1|lia]; lra.
Qed.

(** With one negative eigenvalue the projector keeps the eigenpair of
    [a + b], whose eigenvector is [(1, 1) / sqrt 2]. *)
Lemma circ_proj_Snp_imp_clip M a b :
  circ M a b -> a < b -> 0 <= a + b ->
  circ (proj_Snp_imp eigh2 2 M) ((a + b) / 2) ((a + b) / 2).
Proof.
  intros HM Hab Hsum.
  assert (Hb : 0 <= b) by lra.
  destruct (eigh2_w_circ M a b HM Hb) as [Hw0 Hw1].
  assert (Hcount : n_val_neg eigh2 2 M = 1%nat).
  { unfold n_val_neg. change (eigh_vals eigh2 2 M) with (eigh2_w M).
    cbn [count_negative]. rewrite Hw0, Hw1.
    destruct (Rlt_dec (a - b) 0), (Rlt_dec (a + b) 0); try lra.
    reflexivity. }
  rewrite proj_Snp_imp_branches. cbv zeta. rewrite Hcount.
  change (circ (reconstruct 1 (fun k => eigh2_w M (1 + k)%nat)
                  (fun i k => eigh2_v M i (1 + k)%nat))
               ((a + b) / 2) ((a + b) / 2)).
  destruct (eigh2_angle M) as (F1 & F2 & F3).
  destruct HM as (H1 & H2 & H3 & H4).
  assert (Hgap : eigh2_half_gap M = 0)
    by (unfold eigh2_half_gap; rewrite H1, H2; lra).
  assert (Hr : eigh2_radius M = b).
  { unfold eigh2_w, eigh2_mean in Hw1. rewrite H1, H2 in Hw1. lra. }
  rewrite Hgap, Hr in F2. rewrite Hr, H3 in F3.
  set (c := eigh2_cos M) in *. set (s := eigh2_sin M) in *.
  assert (Hcc : c * c = 1 / 2) by nra.
  assert (Hss : s * s = 1 / 2) by nra.
  assert (Hcs : c * s = 1 / 2) by nra.
  unfold circ. rewrite !reconstruct_entry. cbn [np_sum Nat.add].
  rewrite Hw1.
  change (eigh2_v M O 1%nat) with c. change (eigh2_v M 1%nat 1%nat) with s.
  repeat split; nra.
Qed.

(** One pass on a state of this form, given what the entrywise and the
    semi-definite projectors return. *)
Lemma body_circ_gen Rn K rho s xa xb ua ub va vb wa wb ra rb ya yb za zb :
  circ (st_Xbar s) xa xb -> circ (st_U s) ua ub ->
  circ (st_V s) va vb -> circ (st_W s) wa wb -> circ Rn ra rb ->
  circ (proj_positive (st_Xbar s - st_V s)%M 0) ya yb ->
  circ (proj_Snp_imp eigh2 2 (st_Xbar s - st_W s)%M) za zb ->
  let s' := admm_body eigh2 2 Rn K rho s in
  let Xa := K / 2 in
  let Xb := 1 - K / 2 in
  let Ba := (Xa + ya + za) / 3 in
  let Bb := (Xb + yb + zb) / 3 in
  circ (st_X s') Xa Xb /\
  circ (st_Y s') ya yb /\
  circ (st_Z s') za zb /\
  circ (st_Xbar s') Ba Bb /\
  circ (st_U s') (ua + Xa - Ba) (ub + Xb - Bb) /\
  circ (st_V s') (va + ya - Ba) (vb + yb - Bb) /\
  circ (st_W s') (wa + za - Ba) (wb + zb - Bb).
Proof.
  intros HXbar HU HV HW HR HY' HZ' s' Xa Xb Ba Bb.
  assert (HX' : circ (st_X s') Xa Xb).
  { unfold s'. simpl.
    apply (circ_Hsymmetric _ K (xa - ua + ra / rho) (xb - ub + rb / rho)).
    apply circ_madd; [apply circ_msub; assumption|].
    apply circ_mdiv; exact HR. }
  change (circ (st_Y s') ya yb) in HY'.
  change (circ (st_Z s') za zb) in HZ'.
  assert (HB' : circ (st_Xbar s') Ba Bb).
  { change (st_Xbar s') with ((st_X s' + st_Y s' + st_Z s') / 3)%M.
    apply circ_mdiv. repeat apply circ_madd; assumption. }
  split; [exact HX'|]. split; [exact HY'|]. split; [exact HZ'|].
  split; [exact HB'|].
  split; [|split].
  - change (st_U s') with (st_U s + st_X s' - st_Xbar s')%M.
    apply circ_msub; [apply circ_madd|]; assumption.
  - change (st_V s') with (st_V s + st_Y s' - st_Xbar s')%M.
    apply circ_msub; [apply circ_madd|]; assumption.
  - change (st_W s') with (st_W s + st_Z s' - st_Xbar s')%M.
    apply circ_msub; [apply circ_madd|]; assumption.
Qed.

(** ** Four passes on the identity *)

Lemma circ_eq M a b a' b' : circ M a b -> a = a' -> b = b' -> circ M a' b'.
Proof. intros H -> ->. exact H. Qed.

Lemma admm_loop_0 E n Rd K rho s : admm_loop E n Rd K rho 0 s = s.
Proof. reflexivity. Qed.

Lemma admm_loop_S E n Rd K rho r s :
  admm_loop E n Rd K rho (S r) s
  = if residuals_high n (admm_body E n Rd K rho s)
    then admm_loop E n Rd K rho r (admm_body E n Rd K rho s)
    else admm_body E n Rd K rho s.
Proof. reflexivity. Qed.

Lemma run_init_circ :
  circ (st_Xbar admm_init) 1 0 /\ circ (st_U admm_init) 0 0 /\
  circ (st_V admm_init) 0 0 /\ circ (st_W admm_init) 0 0.
Proof.
  split; [|repeat split].
  simpl. apply (circ_eq _ ((1 + 1 + 1) / 3) ((0 + 0 + 0) / 3)); [|lra|lra].
  apply circ_mdiv. repeat apply circ_madd; apply circ_identity.
Qed.

Lemma run_Rn_circ : exists ra rb, circ run_Rn ra rb.
Proof.
  exists (1 / np_linalg_norm 2 np_identity), (0 / np_linalg_norm 2 np_identity).
  apply circ_mdiv, circ_identity.
Qed.

(** One pass of the run, from the pairs of [Xbar], [U], [V], [W] and the
    pairs that the two cone projectors return. *)
Lemma run_pass s xa xb ua ub va vb wa wb ya yb za zb X Y Z B U V W :
  circ (st_Xbar s) xa xb -> circ (st_U s) ua ub ->
  circ (st_V s) va vb -> circ (st_W s) wa wb ->
  circ (proj_positive (st_Xbar s - st_V s)%M 0) ya yb ->
  circ (proj_Snp_imp eigh2 2 (st_Xbar s - st_W s)%M) za zb ->
  X = (1 / 2, 1 / 2) -> Y = (ya, yb) -> Z = (za, zb) ->
  B = ((1 / 2 + ya + za) / 3, (1 / 2 + yb + zb) / 3) ->
  U = (ua + 1 / 2 - fst B, ub + 1 / 2 - snd B) ->
  V = (va + ya - fst B, vb + yb - snd B) ->
  W = (wa + za - fst B, wb + zb - snd B) ->
  state_circ (admm_body eigh2 2 run_Rn 1 1 s) X Y Z B U V W.
Proof.
  intros HB HU HV HW HY HZ -> -> -> -> -> -> ->.
  destruct run_Rn_circ as (ra & rb & HR).
  destruct (body_circ_gen run_Rn 1 1 s _ _ _ _ _ _ _ _ ra rb _ _ _ _
              HB HU HV HW HR HY HZ) as (H1 & H2 & H3 & H4 & H5 & H6 & H7).
  unfold state_circ. simpl fst. simpl snd.
  split; [apply (circ_eq _ _ _ _ _ H1); lra|].
  split; [exact H2|]. split; [exact H3|].
  split; [apply (circ_eq _ _ _ _ _ H4); lra|].
  split; [apply (circ_eq _ _ _ _ _ H5); lra|].
  split; [apply (circ_eq _ _ _ _ _ H6); lra|].
  apply (circ_eq _ _ _ _ _ H7); lra.
Qed.

Lemma pair_eq (a b a' b' : R) : a = a' -> b = b' -> (a, b) = (a', b').
Proof. intros -> ->. reflexivity. Qed.

Lemma run_s1_circ :
  state_circ run_s1 (1 / 2, 1 / 2) (1, 0) (1, 0) (5 / 6, 1 / 6)
    (- 1 / 3, 1 / 3) (1 / 6, - 1 / 6) (1 / 6, - 1 / 6).
Proof.
  destruct run_init_circ as (HB & HU & HV & HW).
  pose proof (circ_msub _ _ _ _ _ _ HB HV) as HYin.
  pose proof (circ_msub _ _ _ _ _ _ HB HW) as HZin.
  apply (run_pass admm_init 1 0 0 0 0 0 0 0 1 0 1 0); try assumption;
    try (apply pair_eq; simpl; lra).
  - apply (circ_eq _ _ _ _ _ (circ_proj_positive _ _ _ HYin
             ltac:(lra) ltac:(lra))); lra.
  - rewrite (circ_proj_Snp_imp _ _ _ HZin ltac:(lra) ltac:(lra)).
    apply (circ_eq _ _ _ _ _ HZin); lra.
Qed.

Lemma run_s2_circ :
  state_circ run_s2 (1 / 2, 1 / 2) (2 / 3, 1 / 3) (2 / 3, 1 / 3)
    (11 / 18, 7 / 18) (- 4 / 9, 4 / 9) (2 / 9, - 2 / 9) (2 / 9, - 2 / 9).
Proof.
  destruct run_s1_circ as (_ & _ & _ & HB & HU & HV & HW).
  simpl fst in *. simpl snd in *.
  pose proof (circ_msub _ _ _ _ _ _ HB HV) as HYin.
  pose proof (circ_msub _ _ _ _ _ _ HB HW) as HZin.
  apply (run_pass run_s1 _ _ _ _ _ _ _ _ (2 / 3) (1 / 3) (2 / 3) (1 / 3)
           _ _ _ _ _ _ _ HB HU HV HW);
    try (apply pair_eq; simpl; lra).
  - apply (circ_eq _ _ _ _ _ (circ_proj_positive _ _ _ HYin
             ltac:(lra) ltac:(lra))); lra.
  - rewrite (circ_proj_Snp_imp _ _ _ HZin ltac:(lra) ltac:(lra)).
    apply (circ_eq _ _ _ _ _ HZin); lra.
Qed.

Lemma run_s3_circ :
  state_circ run_s3 (1 / 2, 1 / 2) (7 / 18, 11 / 18) (1 / 2, 1 / 2)
    (25 / 54, 29 / 54) (- 11 / 27, 11 / 27) (4 / 27, - 4 / 27)
    (7 / 27, - 7 / 27).
Proof.
  destruct run_s2_circ as (_ & _ & _ & HB & HU & HV & HW).
  simpl fst in *. simpl snd in *.
  pose proof (circ_msub _ _ _ _ _ _ HB HV) as HYin.
  pose proof (circ_msub _ _ _ _ _ _ HB HW) as HZin.
  apply (run_pass run_s2 _ _ _ _ _ _ _ _ (7 / 18) (11 / 18) (1 / 2) (1 / 2)
           _ _ _ _ _ _ _ HB HU HV HW);
    try (apply pair_eq; simpl; lra).
  - apply (circ_eq _ _ _ _ _ (circ_proj_positive _ _ _ HYin
             ltac:(lra) ltac:(lra))); lra.
  - apply (circ_eq _ _ _ _ _ (circ_proj_Snp_imp_clip _ _ _ HZin
             ltac:(lra) ltac:(lra))); lra.
Qed.

Lemma run_s4_circ :
  state_circ run_s4 (1 / 2, 1 / 2) (17 / 54, 37 / 54) (1 / 2, 1 / 2)
    (71 / 162, 91 / 162) (- 28 / 81, 28 / 81) (2 / 81, - 2 / 81)
    (26 / 81, - 26 / 81).
Proof.
  destruct run_s3_circ as (_ & _ & _ & HB & HU & HV & HW).
  simpl fst in *. simpl snd in *.
  pose proof (circ_msub _ _ _ _ _ _ HB HV) as HYin.
  pose proof (circ_msub _ _ _ _ _ _ HB HW) as HZin.
  apply (run_pass run_s3 _ _ _ _ _ _ _ _ (17 / 54) (37 / 54) (1 / 2) (1 / 2)
           _ _ _ _ _ _ _ HB HU HV HW);
    try (apply pair_eq; simpl; lra).
  - apply (circ_eq _ _ _ _ _ (circ_proj_positive _ _ _ HYin
             ltac:(lra) ltac:(lra))); lra.
  - apply (circ_eq _ _ _ _ _ (circ_proj_Snp_imp_clip _ _ _ HZin
             ltac:(lra) ltac:(lra))); lra.
Qed.

(** The residuals that a pass leaves, from the pairs of the matrices. *)
Lemma body_res_dual_circ Rn K rho s a b a' b' :
  circ (st_Xbar s) a b ->
  circ (st_Xbar (admm_body eigh2 2 Rn K rho s)) a' b' ->
  st_res_dual (admm_body eigh2 2 Rn K rho s)
  = Some (rho * sqrt (2 * ((a' - a) * (a' - a))
                      + 2 * ((b' - b) * (b' - b)))).
Proof.
  intros HB HB'.
  change (st_res_dual (admm_body eigh2 2 Rn K rho s))
    with (Some (rho * np_linalg_norm 2
                  (st_Xbar (admm_body eigh2 2 Rn K rho s) - st_Xbar s)%M)).
  unfold np_linalg_norm.
  rewrite (circ_sumsq _ _ _ (circ_msub _ _ _ _ _ _ HB' HB)). reflexivity.
Qed.

Lemma body_res_primal_circ Rn K rho s X Y Z B U V W :
  state_circ (admm_body eigh2 2 Rn K rho s) X Y Z B U V W ->
  st_res_primal (admm_body eigh2 2 Rn K rho s)
  = Some (sqrt
      (2 * ((fst X - fst B) * (fst X - fst B))
       + 2 * ((snd X - snd B) * (snd X - snd B))
       + (2 * ((fst Z - fst B) * (fst Z - fst B))
          + 2 * ((snd Z - snd B) * (snd Z - snd B)))
       + (2 * ((fst Y - fst B) * (fst Y - fst B))
          + 2 * ((snd Y - snd B) * (snd Y - snd B))))).
Proof.
  intros (HX & HY & HZ & HB & _).
  set (s' := admm_body eigh2 2 Rn K rho s) in *.
  change (st_res_primal s')
    with (Some (np_linalg_norm3 2 (st_X s' - st_Xbar s')%M
                  (st_Z s' - st_Xbar s')%M (st_Y s' - st_Xbar s')%M)).
  unfold np_linalg_norm3.
  rewrite (circ_sumsq _ _ _ (circ_msub _ _ _ _ _ _ HX HB)).
  rewrite (circ_sumsq _ _ _ (circ_msub _ _ _ _ _ _ HZ HB)).
  rewrite (circ_sumsq _ _ _ (circ_msub _ _ _ _ _ _ HY HB)).
  reflexivity.
Qed.

Lemma sqrt_le_2 x : x <= 4 -> sqrt x <= 2.
Proof.
  intros H. replace 2 with (sqrt (2 * 2)) by (apply sqrt_square; lra).
  apply sqrt_le_1_alt. lra.
Qed.

Lemma sqrt_ge_hundredth x : 1 / 10000 <= x -> 1 / 100 <= sqrt x.
Proof.
  intros H. replace (1 / 100) with (sqrt (1 / 100 * (1 / 100)))
    by (apply sqrt_square; lra).
  apply sqrt_le_1_alt. lra.
Qed.

(** A primal residual of at least [1/100] is high when the three norms are
    at most [2]. *)
Lemma residuals_high_circ Rn K rho s X Y Z B U V W p :
  state_circ (admm_body eigh2 2 Rn K rho s) X Y Z B U V W ->
  st_res_primal (admm_body eigh2 2 Rn K rho s) = Some (sqrt p) ->
  1 / 10000 <= p ->
  2 * (fst X * fst X) + 2 * (snd X * snd X) <= 4 ->
  2 * (fst Y * fst Y) + 2 * (snd Y * snd Y) <= 4 ->
  2 * (fst Z * fst Z) + 2 * (snd Z * snd Z) <= 4 ->
  residuals_high 2 (admm_body eigh2 2 Rn K rho s) = true.
Proof.
  intros (HX & HY & HZ & _) Hp Hlow Hx Hy Hz.
  set (s' := admm_body eigh2 2 Rn K rho s) in *.
  unfold residuals_high. rewrite Hp.
  change (st_res_dual s')
    with (Some (rho * np_linalg_norm 2 (st_Xbar s' - st_Xbar s)%M)).
  apply orb_true_iff. left. apply is_primal_high_true.
  unfold np_linalg_norm.
  rewrite (circ_sumsq _ _ _ HX), (circ_sumsq _ _ _ HY), (circ_sumsq _ _ _ HZ).
  set (top := Rmax _ _).
  assert (Hmax : top <= 2)
    by (repeat apply Rmax_lub; apply sqrt_le_2; assumption).
  assert (Hmax0 : 0 <= top)
    by (eapply Rle_trans; [apply sqrt_pos|apply Rmax_r]).
  pose proof (sqrt_ge_hundredth p Hlow) as Hres.
  clearbody top. unfold epsilon. simpl. nra.
Qed.

Lemma run_s1_res : st_res_primal run_s1 = Some (sqrt (2 / 3))
                   /\ st_res_dual run_s1 = Some (1 * sqrt (1 / 9)).
Proof.
  pose proof run_s1_circ as H. destruct run_init_circ as (HB0 & _).
  split.
  - unfold run_s1. rewrite (body_res_primal_circ _ _ _ _ _ _ _ _ _ _ _ H).
    simpl. do 2 f_equal. lra.
  - destruct H as (_ & _ & _ & HB & _). unfold run_s1.
    rewrite (body_res_dual_circ _ _ _ _ _ _ _ _ HB0 HB).
    simpl. do 3 f_equal. lra.
Qed.

Lemma run_s2_res : st_res_primal run_s2 = Some (sqrt (2 / 27))
                   /\ st_res_dual run_s2 = Some (1 * sqrt (16 / 81)).
Proof.
  pose proof run_s2_circ as H.
  destruct run_s1_circ as (_ & _ & _ & HB0 & _).
  split.
  - unfold run_s2. rewrite (body_res_primal_circ _ _ _ _ _ _ _ _ _ _ _ H).
    simpl. do 2 f_equal. lra.
  - destruct H as (_ & _ & _ & HB & _). unfold run_s2.
    rewrite (body_res_dual_circ _ _ _ _ _ _ _ _ HB0 HB).
    simpl. do 3 f_equal. lra.
Qed.

Lemma run_s3_res : st_res_primal run_s3 = Some (sqrt (8 / 243)).
Proof.
  unfold run_s3.
  rewrite (body_res_primal_circ _ _ _ _ _ _ _ _ _ _ _ run_s3_circ).
  simpl. do 2 f_equal. lra.
Qed.

Lemma run_s4_res : st_res_primal run_s4 = Some (sqrt (200 / 2187)).
Proof.
  unfold run_s4.
  rewrite (body_res_primal_circ _ _ _ _ _ _ _ _ _ _ _ run_s4_circ).
  simpl. do 2 f_equal. lra.
Qed.

Lemma run_s1_high : residuals_high 2 run_s1 = true.
Proof.
  apply (residuals_high_circ _ _ _ _ _ _ _ _ _ _ _ (2 / 3) run_s1_circ);
    [apply run_s1_res| | | |]; simpl; lra.
Qed.

Lemma run_s2_high : residuals_high 2 run_s2 = true.
Proof.
  apply (residuals_high_circ _ _ _ _ _ _ _ _ _ _ _ (2 / 27) run_s2_circ);
    [apply run_s2_res| | | |]; simpl; lra.
Qed.

Lemma run_s3_high : residuals_high 2 run_s3 = true.
Proof.
  apply (residuals_high_circ _ _ _ _ _ _ _ _ _ _ _ (8 / 243) run_s3_circ);
    [apply run_s3_res| | | |]; simpl; lra.
Qed.

Lemma run_budget_1 :
  pecok_admm_state eigh2 2 np_identity 1 1 1 = run_s1.
Proof.
  unfold pecok_admm_state. fold run_Rn.
  rewrite admm_loop_S. fold run_s1. rewrite admm_loop_0.
  destruct (residuals_high 2 run_s1); reflexivity.
Qed.

Lemma run_budget_2 :
  pecok_admm_state eigh2 2 np_identity 1 2 1 = run_s2.
Proof.
  unfold pecok_admm_state. fold run_Rn.
  rewrite admm_loop_S. fold run_s1. rewrite run_s1_high.
  rewrite admm_loop_S. fold run_s2. rewrite admm_loop_0.
  destruct (residuals_high 2 run_s2); reflexivity.
Qed.

Lemma run_budget_3 :
  pecok_admm_state eigh2 2 np_identity 1 3 1 = run_s3.
Proof.
  unfold pecok_admm_state. fold run_Rn.
  rewrite admm_loop_S. fold run_s1. rewrite run_s1_high.
  rewrite admm_loop_S. fold run_s2. rewrite run_s2_high.
  rewrite admm_loop_S. fold run_s3. rewrite admm_loop_0.
  destruct (residuals_high 2 run_s3); reflexivity.
Qed.

Lemma run_budget_4 :
  pecok_admm_state eigh2 2 np_identity 1 4 1 = run_s4.
Proof.
  unfold pecok_admm_state. fold run_Rn.
  rewrite admm_loop_S. fold run_s1. rewrite run_s1_high.
  rewrite admm_loop_S. fold run_s2. rewrite run_s2_high.
  rewrite admm_loop_S. fold run_s3. rewrite run_s3_high.
  rewrite admm_loop_S. fold run_s4. rewrite admm_loop_0.
  destruct (residuals_high 2 run_s4); reflexivity.
Qed.

(** C9, the claim as written fails for each of the two residuals.  On the
    2 x 2 identity with [K = 1] and [rho = 1], a valid input with a correct
    solver, the dual residual is [1/3] at the end of the run with a budget
    of one pass and [4/9] with a budget of two, and the primal residual is
    [sqrt (8/243)] with a budget of three passes and [sqrt (200/2187)] with
    a budget of four. *)
Lemma longer_run_larger_residuals :
  eigh_correct eigh2 2 /\ symmetric 2 np_identity /\
  (exists d1 d2,
     st_res_dual (pecok_admm_state eigh2 2 np_identity 1 1 1) = Some d1 /\
     st_res_dual (pecok_admm_state eigh2 2 np_identity 1 2 1) = Some d2 /\
     d1 < d2) /\
  (exists p3 p4,
     st_res_primal (pecok_admm_state eigh2 2 np_identity 1 3 1) = Some p3 /\
     st_res_primal (pecok_admm_state eigh2 2 np_identity 1 4 1) = Some p4 /\
     p3 < p4).
Proof.
  split; [exact eigh2_correct|].
  split; [apply np_identity_symmetric|].
  split.
  - exists (1 * sqrt (1 / 9)), (1 * sqrt (16 / 81)).
    rewrite run_budget_1, run_budget_2.
    split; [apply run_s1_res|]. split; [apply run_s2_res|].
    assert (sqrt (1 / 9) < sqrt (16 / 81)) by (apply sqrt_lt_1_alt; lra).
    lra.
  - exists (sqrt (8 / 243)), (sqrt (200 / 2187)).
    rewrite run_budget_3, run_budget_4.
    split; [exact run_s3_res|]. split; [exact run_s4_res|].
    apply sqrt_lt_1_alt. lra.
Qed.

(** ** A larger budget continues the shorter run *)

Lemma admm_loop_extend E n Rd K rho m e s :
  admm_loop E n Rd K rho (m + e) s
  = let t := admm_loop E n Rd K rho m s in
    if (0 <? m)%nat && negb (residuals_high n t) then t
    else admm_loop E n Rd K rho e t.
Proof.
  revert s. induction m as [|m IH]; intros s; [reflexivity|].
  rewrite Nat.add_succ_l, !admm_loop_S.
  destruct (residuals_high n (admm_body E n Rd K rho s)) eqn:Hhigh.
  - rewrite IH. cbv zeta.
    destruct m as [|m]; [|reflexivity].
    rewrite admm_loop_0, Hhigh. reflexivity.
  - cbv zeta. rewrite Hhigh. reflexivity.
Qed.

(** C9, as amended.  With the input, [K] and [rho] fixed, the run with the
    larger budget goes through the passes of the run with the smaller one.
    If the shorter run ended on a pass after which both residuals were
    within tolerance, the longer run ends in the same state, with the same
    [Z] and the same residuals.  Otherwise the longer run goes on from the
    state the shorter one ended in; nothing orders the residuals it ends
    with against those of the shorter run. *)
Theorem larger_budget_continues E (n : nat) (Rd : mat) (K rho : R)
    (m e : nat) :
  let s := pecok_admm_state E n Rd K m rho in
  let s' := pecok_admm_state E n Rd K (m + e) rho in
  ((0 < m)%nat -> residuals_high n s = false -> s' = s) /\
  (m = 0%nat \/ residuals_high n s = true ->
     s' = admm_loop E n (Rd / np_linalg_norm n Rd)%M K rho e s).
Proof.
  intros s s'. unfold s', s, pecok_admm_state.
  rewrite admm_loop_extend. cbv zeta.
  set (t := admm_loop E n (Rd / np_linalg_norm n Rd)%M K rho m admm_init).
  split.
  - intros Hm Hlow. rewrite Hlow.
    destruct (Nat.ltb_spec 0 m); [reflexivity|lia].
  - intros [Hm | Hhigh].
    + subst m. reflexivity.
    + rewrite Hhigh, andb_false_r. reflexivity.
Qed.

Lemma larger_budget_continues_witness :
  pecok_admm_state eigh2 2 np_identity 1 (1 + 1) 1
  = admm_loop eigh2 2 run_Rn 1 1 1
      (pecok_admm_state eigh2 2 np_identity 1 1 1).
Proof.
  apply (larger_budget_continues eigh2 2 np_identity 1 1 1 1).
  right. rewrite run_budget_1. exact run_s1_high.
Defined.

(** * Properties beyond the spec *)

(** ** The affine projector *)

Lemma feasible_residuals n K Y :
  feasible n K Y ->
  (forall i, (i < n)%nat -> np_sum_axis1 n Y i - 1 = 0) /\
  np_sum n (fun i => np_sum_axis1 n Y i - 1) = 0 /\
  np_trace n Y - K = 0.
Proof.
  intros [Hrow Htr].
  assert (Hx : forall i, (i < n)%nat -> np_sum_axis1 n Y i - 1 = 0)
    by (intros i Hi; rewrite (Hrow i Hi); lra).
  split; [exact Hx|]. split; [apply np_sum_zero; exact Hx|lra].
Qed.

(** X1.  On a matrix that already has unit row sums and trace [K], both
    variants of the affine projector return the matrix itself. *)
Theorem affine_projector_idempotent (n : nat) (Y : mat) (K : R) :
  (2 <= n)%nat -> feasible n K Y ->
  mat_eq n (proj_lin_Hrows n Y K) Y /\
  mat_eq n (proj_lin_Hsymmetric n Y K) Y.
Proof.
  intros Hn HF. apply INR_ge_2 in Hn.
  destruct (feasible_residuals n K Y HF) as (Hx & HS & Hy).
  split; intros i j Hi Hj.
  - unfold proj_lin_Hrows, msub. rewrite operator_entry.
    rewrite HS, Hy, (Hx i Hi). destruct (Nat.eqb i j); field; nra.
  - unfold proj_lin_Hsymmetric, msub. rewrite operator_sym_entry.
    rewrite HS, Hy, (Hx i Hi), (Hx j Hj).
    destruct (Nat.eqb i j); field; split; lra.
Qed.

Lemma A_closer_idempotent_witness :
  mat_eq 3 (proj_lin_Hrows 3 A_closer 1) A_closer /\
  mat_eq 3 (proj_lin_Hsymmetric 3 A_closer 1) A_closer.
Proof.
  apply (affine_projector_idempotent 3 A_closer 1); [lia|].
  exact A_closer_feasible.
Defined.

Lemma operator_minus u v u' v' i j :
  operator_lstarllstarinv u v i j - operator_lstarllstarinv u' v' i j
  = operator_lstarllstarinv (fun k => u k - u' k) (v - v') i j.
Proof. rewrite !operator_entry. destruct (Nat.eqb i j); lra. Qed.

(** X2.  [proj_lin_Hrows] does not increase Frobenius distances: two
    projected matrices are at most as far apart as the matrices they come
    from. *)
Theorem Hrows_nonexpansive (n : nat) (Y Y' : mat) (K : R) :
  (2 <= n)%nat ->
  np_linalg_norm n (proj_lin_Hrows n Y K - proj_lin_Hrows n Y' K)%M
  <= np_linalg_norm n (Y - Y')%M.
Proof.
  intros Hn. unfold np_linalg_norm. apply sqrt_le_1_alt.
  destruct (feasible_difference n K _ _ (Hrows_feasible n Y K Hn)
              (Hrows_feasible n Y' K Hn)) as [Hrow Htr].
  set (P := proj_lin_Hrows n Y K) in *.
  set (P' := proj_lin_Hrows n Y' K) in *.
  assert (Hsplit : mat_eq n (Y - Y')%M ((P - P') + ((Y - P) - (Y' - P')))%M).
  { intros i j _ _. unfold madd, msub. lra. }
  rewrite (sumsq_ext n _ _ Hsplit), sumsq_plus.
  assert (Horth : inner n (P - P')%M ((Y - P) - (Y' - P'))%M = 0).
  { rewrite inner_sym.
    unfold P at 1, P' at 1, proj_lin_Hrows.
    match goal with
    | |- context [(Y - (Y - operator_lstarllstarinv ?u ?v))%M] =>
        set (iu := u); set (iv := v)
    end.
    match goal with
    | |- context [(Y' - (Y' - operator_lstarllstarinv ?u ?v))%M] =>
        set (iu' := u); set (iv' := v)
    end.
    rewrite (inner_ext n _
               (operator_lstarllstarinv (fun k => iu k - iu' k) (iv - iv'))
               _ (P - P')%M).
    - rewrite inner_operator, Htr.
      rewrite np_sum_zero; [lra|].
      intros i Hi. rewrite (Hrow i Hi). lra.
    - intros i j _ _. rewrite <- operator_minus. unfold msub. lra.
    - intros i j _ _. reflexivity. }
  rewrite Horth.
  pose proof (sumsq_nonneg n ((Y - P) - (Y' - P'))%M). lra.
Qed.

Lemma Hrows_nonexpansive_witness :
  np_linalg_norm 3 (proj_lin_Hrows 3 Y_diag100 1 - proj_lin_Hrows 3 A_closer 1)%M
  <= np_linalg_norm 3 (Y_diag100 - A_closer)%M.
Proof. apply (Hrows_nonexpansive 3 Y_diag100 A_closer 1). lia. Defined.

(** X3.  On a symmetric input [proj_lin_Hrows] returns a symmetric matrix
    exactly when all the rows of the input have the same sum: the
    correction it subtracts is constant along each row, not along each
    column. *)
Theorem Hrows_symmetric_iff (n : nat) (Y : mat) (K : R) :
  (2 <= n)%nat -> symmetric n Y ->
  (symmetric n (proj_lin_Hrows n Y K) <->
   forall i j, (i < n)%nat -> (j < n)%nat ->
     np_sum_axis1 n Y i = np_sum_axis1 n Y j).
Proof.
  intros Hn HY. apply INR_ge_2 in Hn.
  unfold proj_lin_Hrows.
  set (x := fun i => np_sum_axis1 n Y i - 1).
  set (y := np_trace n Y - K).
  set (q := (np_sum n x - y * INR n) / (INR n ^ 2 - INR n)).
  set (iv := ((y - np_sum n x) / (INR n - 1) + y) / INR n).
  split.
  - intros Hsym i j Hi Hj.
    destruct (Nat.eq_dec i j) as [->|Hne]; [reflexivity|].
    specialize (Hsym i j Hi Hj). unfold msub in Hsym.
    rewrite !operator_entry, (HY i j Hi Hj), (Nat.eqb_sym j i) in Hsym.
    destruct (Nat.eqb_spec i j) as [|_]; [contradiction|].
    assert (Heq : (np_sum_axis1 n Y i - 1 + q) / INR n
                  = (np_sum_axis1 n Y j - 1 + q) / INR n) by lra.
    apply (Rmult_eq_compat_r (INR n)) in Heq.
    unfold Rdiv in Heq. rewrite !Rmult_assoc, Rinv_l in Heq by lra.
    lra.
  - intros Hrows i j Hi Hj. unfold msub.
    rewrite !operator_entry, (HY i j Hi Hj), (Nat.eqb_sym j i).
    unfold x. rewrite (Hrows i j Hi Hj). reflexivity.
Qed.

Lemma Hrows_symmetric_iff_witness :
  symmetric 3 (proj_lin_Hrows 3 A_closer 1).
Proof.
  apply (Hrows_symmetric_iff 3 A_closer 1);
    [lia|exact A_closer_symmetric|].
  intros i j Hi Hj. destruct A_closer_feasible as [Hrow _].
  rewrite (Hrow i Hi), (Hrow j Hj). reflexivity.
Defined.

(** X4.  For matrices of size 2 the symmetric variant does not depend on
    its input: the symmetric matrices with unit row sums and trace [K]
    reduce to the single matrix [[K/2, 1 - K/2], [1 - K/2, K/2]], which is
    what the function returns on every symmetric input. *)
Theorem Hsymmetric_dim2 (Y : mat) (K : R) :
  symmetric 2 Y ->
  mat_eq 2 (proj_lin_Hsymmetric 2 Y K) (only_point K) /\
  (forall A, symmetric 2 A -> feasible 2 K A -> mat_eq 2 A (only_point K)).
Proof.
  intros HY.
  assert (H10 : Y 1%nat O = Y O 1%nat) by (apply HY; lia).
  split.
  - intros i j Hi Hj. unfold proj_lin_Hsymmetric, msub, only_point.
    rewrite operator_sym_entry. unfold np_sum_axis1, np_trace.
    destruct i as [|[|i]], j as [|[|j]]; try lia; simpl;
      rewrite ?H10; field.
  - intros A HA [Hrow Htr].
    assert (A10 : A 1%nat O = A O 1%nat) by (apply HA; lia).
    pose proof (Hrow O ltac:(lia)) as R0.
    pose proof (Hrow 1%nat ltac:(lia)) as R1.
    unfold np_sum_axis1, np_trace in *. simpl in R0, R1, Htr.
    intros i j Hi Hj. unfold only_point.
    destruct i as [|[|i]], j as [|[|j]]; try lia; simpl; lra.
Qed.

Lemma Hsymmetric_dim2_witness :
  mat_eq 2 (proj_lin_Hsymmetric 2 Y_swap 1) (only_point 1).
Proof.
  destruct (Hsymmetric_dim2 Y_swap 1 (Y_swap_symmetric 2)) as [H _].
  exact H.
Defined.

Lemma inner_upper_symmetric n A B :
  symmetric n A -> symmetric n B ->
  2 * inner_upper n A B = inner n A B + np_sum n (fun i => A i i * B i i).
Proof.
  intros HA HB.
  assert (Hflip : inner_upper n A B =
    np_sum n (fun i =>
      np_sum n (fun j => if (j <=? i)%nat then A i j * B i j else 0))).
  { unfold inner_upper. rewrite np_sum_swap.
    apply np_sum_ext; intros i Hi. apply np_sum_ext; intros j Hj.
    rewrite (HA j i Hj Hi), (HB j i Hj Hi). reflexivity. }
  replace (2 * inner_upper n A B) with (inner_upper n A B + inner_upper n A B)
    by lra.
  rewrite Hflip at 2. unfold inner_upper, inner.
  rewrite <- !np_sum_plus. apply np_sum_ext; intros i Hi.
  rewrite <- (np_sum_delta n i (fun j => A i j * B i j) Hi).
  rewrite <- !np_sum_plus. apply np_sum_ext; intros j _.
  destruct (Nat.leb_spec i j), (Nat.leb_spec j i), (Nat.eqb_spec i j);
    try lia; lra.
Qed.

(** X5.  The two operators are the adjoints their docstrings name.  Paired
    with any matrix [D] in the Frobenius inner product,
    [operator_lstarllstarinv u v] gives the row sums of [D] weighted by [u]
    plus [v] times the trace of [D]; [operator_lstarllstarinv_sym u v] gives
    the same against a symmetric [D] in the inner product of the upper
    triangle. *)
Theorem operators_are_adjoints (n : nat) (u : vec) (v : R) (D : mat) :
  inner n (operator_lstarllstarinv u v) D
  = np_sum n (fun i => u i * np_sum_axis1 n D i) + v * np_trace n D /\
  (symmetric n D ->
   inner_upper n (operator_lstarllstarinv_sym u v) D
   = np_sum n (fun i => u i * np_sum_axis1 n D i) + v * np_trace n D).
Proof.
  split; [apply inner_operator|].
  intros HD.
  assert (Hop : symmetric n (operator_lstarllstarinv_sym u v))
    by (intros i j _ _; apply operator_sym_symmetric).
  pose proof (inner_upper_symmetric n _ D Hop HD) as H2.
  rewrite inner_operator_sym in H2.
  assert (Hcol : np_sum n (fun j => u j * np_sum n (fun i => D i j))
                 = np_sum n (fun i => u i * np_sum n (D i))).
  { apply np_sum_ext; intros j Hj. f_equal.
    apply np_sum_ext; intros i Hi. apply HD; assumption. }
  assert (Hdiag : np_sum n (fun i => (v - u i) * D i i)
                  + np_sum n (fun i => operator_lstarllstarinv_sym u v i i
                                       * D i i)
                  = 2 * (v * np_trace n D)).
  { rewrite <- np_sum_plus. unfold np_trace.
    rewrite <- !np_sum_scal. apply np_sum_ext; intros i _.
    rewrite operator_sym_entry, Nat.eqb_refl. lra. }
  unfold np_sum_axis1. rewrite Hcol in H2. lra.
Qed.

Lemma operators_are_adjoints_witness :
  inner_upper 3 (operator_lstarllstarinv_sym (fun _ => 1) 2) A_closer
  = np_sum 3 (fun i => 1 * np_sum_axis1 3 A_closer i)
    + 2 * np_trace 3 A_closer.
Proof.
  apply (operators_are_adjoints 3 (fun _ => 1) 2 A_closer).
  exact A_closer_symmetric.
Defined.

(** X6.  On a symmetric input of size at least 2 the symmetric variant
    returns a matrix whose columns, like its rows, each sum to [1]. *)
Theorem Hsymmetric_column_sums (n : nat) (Y : mat) (K : R) :
  (2 <= n)%nat -> symmetric n Y ->
  forall j, (j < n)%nat -> np_sum_axis0 n (proj_lin_Hsymmetric n Y K) j = 1.
Proof.
  intros Hn HY j Hj.
  destruct (Hsymmetric_feasible n Y K Hn) as [Hrow _].
  rewrite <- (Hrow j Hj). unfold np_sum_axis0, np_sum_axis1.
  apply np_sum_ext; intros i Hi.
  apply (Hsymmetric_symmetric n Y K HY i j Hi Hj).
Qed.

Lemma Hsymmetric_column_sums_witness :
  np_sum_axis0 3 (proj_lin_Hsymmetric 3 Y_diag100 1) 1%nat = 1.
Proof.
  apply (Hsymmetric_column_sums 3 Y_diag100 1);
    [lia|exact Y_diag100_symmetric|lia].
Defined.

(** ** The entrywise projector *)

(** X7.  Applying [proj_positive] twice with the same threshold gives what
    one application gives, whatever the threshold. *)
Theorem proj_positive_idempotent (x : mat) (thresh : R) (i j : nat) :
  proj_positive (proj_positive x thresh) thresh i j
  = proj_positive x thresh i j.
Proof.
  unfold proj_positive.
  destruct (Rlt_dec (x i j) thresh) as [Hlt|Hge].
  - destruct (Rlt_dec 0 thresh); reflexivity.
  - destruct (Rlt_dec (x i j) thresh); [contradiction|reflexivity].
Qed.

Lemma sumsq_le n (A B : mat) :
  (forall i j, (i < n)%nat -> (j < n)%nat -> A i j * A i j <= B i j * B i j) ->
  sumsq n A <= sumsq n B.
Proof.
  intros H. unfold sumsq. apply np_sum_le; intros i Hi.
  apply np_sum_le; intros j Hj. apply H; assumption.
Qed.

(** X8.  With the default threshold [proj_positive] is the projection onto
    the matrices without negative entries: its output has none, and no
    matrix without negative entries is nearer to the input in Frobenius
    norm. *)
Theorem proj_positive_nearest (n : nat) (x B : mat) :
  (forall i j, (i < n)%nat -> (j < n)%nat -> 0 <= B i j) ->
  (forall i j, 0 <= proj_positive x 0 i j) /\
  np_linalg_norm n (x - proj_positive x 0)%M <= np_linalg_norm n (x - B)%M.
Proof.
  intros HB. split.
  - intros i j. unfold proj_positive. destruct (Rlt_dec (x i j) 0); lra.
  - unfold np_linalg_norm. apply sqrt_le_1_alt, sumsq_le.
    intros i j Hi Hj. specialize (HB i j Hi Hj).
    unfold msub, proj_positive.
    destruct (Rlt_dec (x i j) 0) as [Hneg|Hpos].
    + assert (0 <= - x i j * B i j) by (apply Rmult_le_pos; lra).
      replace ((x i j - B i j) * (x i j - B i j))
        with ((x i j - 0) * (x i j - 0) + 2 * (- x i j * B i j)
              + B i j * B i j) by ring.
      pose proof (Rle_0_sqr (B i j)) as Hbb. unfold Rsqr in Hbb. lra.
    + pose proof (Rle_0_sqr (x i j - B i j)) as Hs. unfold Rsqr in Hs.
      replace ((x i j - x i j) * (x i j - x i j)) with 0 by ring.
      exact Hs.
Qed.

Lemma proj_positive_nearest_witness :
  np_linalg_norm 2 (mneg half_matrix - proj_positive (mneg half_matrix) 0)%M
  <= np_linalg_norm 2 (mneg half_matrix - np_identity)%M.
Proof.
  apply (proj_positive_nearest 2 (mneg half_matrix) np_identity).
  intros i j _ _. unfold np_identity. destruct (Nat.eqb i j); lra.
Defined.

(** X9.  [proj_positive] with the default threshold does not increase
    Frobenius distances. *)
Theorem proj_positive_nonexpansive (n : nat) (x y : mat) :
  np_linalg_norm n (proj_positive x 0 - proj_positive y 0)%M
  <= np_linalg_norm n (x - y)%M.
Proof.
  unfold np_linalg_norm. apply sqrt_le_1_alt, sumsq_le.
  intros i j _ _. unfold msub, proj_positive.
  pose proof (Rle_0_sqr (x i j - y i j)) as Hs. unfold Rsqr in Hs.
  destruct (Rlt_dec (x i j) 0) as [Hx|Hx], (Rlt_dec (y i j) 0) as [Hy|Hy].
  - replace ((0 - 0) * (0 - 0)) with 0 by ring. exact Hs.
  - assert (0 <= - x i j * y i j) by (apply Rmult_le_pos; lra).
    replace ((x i j - y i j) * (x i j - y i j))
      with ((0 - y i j) * (0 - y i j) + 2 * (- x i j * y i j)
            + x i j * x i j) by ring.
    pose proof (Rle_0_sqr (x i j)) as Hxx. unfold Rsqr in Hxx. lra.
  - assert (0 <= x i j * - y i j) by (apply Rmult_le_pos; lra).
    replace ((x i j - y i j) * (x i j - y i j))
      with ((x i j - 0) * (x i j - 0) + 2 * (x i j * - y i j)
            + y i j * y i j) by ring.
    pose proof (Rle_0_sqr (y i j)) as Hyy. unfold Rsqr in Hyy. lra.
  - apply Rle_refl.
Qed.

(** ** The semi-definite projector *)

Lemma n_val_neg_psd E n Y :
  psd n Y -> eigh_correct_at E n Y -> n_val_neg E n Y = 0%nat.
Proof.
  intros Hpsd ((v0 & H0) & _). unfold n_val_neg.
  apply count_negative_none. intros m Hm Hneg.
  pose proof (psd_eigenvalues_nonneg n Y _ v0 Hpsd H0 m Hm). lra.
Qed.

Lemma proj_Snp_imp_fixes_psd E n Y :
  psd n Y -> eigh_correct_at E n Y -> proj_Snp_imp E n Y = Y.
Proof.
  intros Hpsd HY. rewrite proj_Snp_imp_branches. cbv zeta.
  rewrite (n_val_neg_psd E n Y Hpsd HY). reflexivity.
Qed.

(** X10.  With a solver that is right on the symmetric matrices of size
    [n], [proj_Snp_imp] hands a symmetric positive semi-definite matrix back
    as it is, and applying it twice to a symmetric matrix gives what one
    application gives. *)
Theorem proj_Snp_imp_idempotent E (n : nat) (Y : mat) :
  eigh_correct E n -> symmetric n Y ->
  (psd n Y -> proj_Snp_imp E n Y = Y) /\
  proj_Snp_imp E n (proj_Snp_imp E n Y) = proj_Snp_imp E n Y.
Proof.
  intros HE HY. split.
  - intros Hpsd. apply proj_Snp_imp_fixes_psd; [exact Hpsd|apply HE, HY].
  - pose proof (HE Y HY) as Hat.
    pose proof (HE _ (mneg_symmetric n Y HY)) as Hneg.
    pose proof Hat as (_ & _ & HF).
    apply proj_Snp_imp_fixes_psd.
    + apply (proj_Snp_imp_psd E n Y _ _ HF Hat Hneg).
    + apply HE. apply (proj_Snp_imp_symmetric E n Y _ _ HF Hat Hneg).
Qed.

Lemma proj_Snp_imp_idempotent_witness :
  proj_Snp_imp eigh2 2 (proj_Snp_imp eigh2 2 Y_swap)
  = proj_Snp_imp eigh2 2 Y_swap.
Proof.
  apply (proj_Snp_imp_idempotent eigh2 2 Y_swap);
    [exact eigh2_correct|apply Y_swap_symmetric].
Defined.

Lemma mneg_mneg n Y : mat_eq n (- - Y)%M Y.
Proof. intros i j _ _. unfold mneg. lra. Qed.

(** The projection of [-Y] is the negative part of [Y]. *)
Lemma proj_Snp_imp_neg_part E n Y w v :
  eigh_correct E n -> symmetric n Y -> eig_decomp n Y w v ->
  mat_eq n (proj_Snp_imp E n (- Y)%M) (spectral n (neg_part w) v).
Proof.
  intros HE HY Hd.
  pose proof (mneg_symmetric n Y HY) as HnY.
  pose proof (HE _ HnY) as Hat.
  pose proof (HE _ (mneg_symmetric n _ HnY)) as Hneg.
  pose proof Hat as (_ & _ & HF).
  set (w' := fst (eigh_full E n (- Y)%M)) in *.
  set (v' := snd (eigh_full E n (- Y)%M)) in *.
  intros i j Hi Hj.
  rewrite (proj_Snp_imp_pos_part E n _ w' v' HF Hat Hneg i j Hi Hj).
  pose proof (mneg_spectral n Y w' v' (eig_decomp_spectral n _ w' v' HF))
    as HYs.
  assert (Hagree : mat_eq n (spectral n w v)
                            (spectral n (fun m => - w' m) v')).
  { intros a b Ha Hb.
    rewrite <- (eig_decomp_spectral n Y w v Hd a b Ha Hb).
    apply HYs; assumption. }
  rewrite (neg_part_unique n w v _ v'
             (eig_decomp_orthonormal n Y w v Hd)
             (eig_decomp_orthonormal n _ w' v' HF) Hagree i j Hi Hj).
  apply spectral_ext. intros k _. unfold pos_part, neg_part.
  rewrite Ropp_involutive. reflexivity.
Qed.

(** X11.  With a solver that is right on the symmetric matrices of size
    [n], a symmetric [Y] is the difference of its projection and the
    projection of [-Y], and the two projections are orthogonal in the
    Frobenius inner product. *)
Theorem proj_Snp_imp_moreau E (n : nat) (Y : mat) :
  eigh_correct E n -> symmetric n Y ->
  mat_eq n Y (proj_Snp_imp E n Y - proj_Snp_imp E n (- Y)%M)%M /\
  inner n (proj_Snp_imp E n Y) (proj_Snp_imp E n (- Y)%M) = 0.
Proof.
  intros HE HY.
  pose proof (HE Y HY) as Hat.
  pose proof (HE _ (mneg_symmetric n Y HY)) as Hneg.
  pose proof Hat as (_ & _ & HF).
  set (w := fst (eigh_full E n Y)) in *.
  set (v := snd (eigh_full E n Y)) in *.
  pose proof (proj_Snp_imp_pos_part E n Y w v HF Hat Hneg) as HP.
  pose proof (proj_Snp_imp_neg_part E n Y w v HE HY HF) as HN.
  split.
  - intros i j Hi Hj. unfold msub.
    rewrite (HP i j Hi Hj), (HN i j Hi Hj).
    rewrite (eig_decomp_spectral n Y w v HF i j Hi Hj).
    apply spectral_split.
  - rewrite (inner_ext n _ _ _ _ HP HN).
    apply inner_pos_neg. apply (eig_decomp_orthonormal n Y w v HF).
Qed.

Lemma proj_Snp_imp_moreau_witness :
  mat_eq 2 Y_swap
    (proj_Snp_imp eigh2 2 Y_swap - proj_Snp_imp eigh2 2 (- Y_swap)%M)%M.
Proof.
  destruct (proj_Snp_imp_moreau eigh2 2 Y_swap eigh2_correct
              (Y_swap_symmetric 2)) as [H _].
  exact H.
Defined.

(** X12.  [proj_Snp_imp] reads the solver through its eigenvalues and
    through at most one request for eigenpairs, which never asks for more
    than half of them: two solvers that report the same eigenvalues of [Y]
    and answer alike every request for at most [n / 2] eigenpairs give the
    same projection. *)
Theorem proj_Snp_imp_requests E E' (n : nat) (Y : mat) :
  eigh_vals E n Y = eigh_vals E' n Y ->
  (forall M lo hi, (lo <= hi)%nat -> (hi < n)%nat ->
     (2 * (hi + 1 - lo) <= n)%nat ->
     eigh_range E n M lo hi = eigh_range E' n M lo hi) ->
  proj_Snp_imp E n Y = proj_Snp_imp E' n Y.
Proof.
  intros Hvals Hrange. unfold proj_Snp_imp. rewrite <- Hvals.
  pose proof (count_negative_le n (eigh_vals E n Y)) as Hle.
  set (k := count_negative n (eigh_vals E n Y)) in *.
  destruct (Nat.eqb_spec k 0) as [|H0]; [reflexivity|].
  destruct (Nat.eqb_spec k n) as [|Hn]; [reflexivity|].
  destruct (Nat.ltb_spec k (n - k)) as [Hlt|Hge].
  - rewrite (Hrange (- Y)%M (n - k)%nat (n - 1)%nat) by lia. reflexivity.
  - rewrite (Hrange Y k (n - 1)%nat) by lia. reflexivity.
Qed.

Lemma proj_Snp_imp_requests_witness :
  proj_Snp_imp eigh2 2 Y_swap = proj_Snp_imp eigh2_lazy 2 Y_swap.
Proof.
  apply (proj_Snp_imp_requests eigh2 eigh2_lazy 2 Y_swap);
    [reflexivity|].
  intros M lo hi _ _ Hhalf. unfold eigh2_lazy, eigh2. cbn [eigh_range].
  destruct (Nat.leb_spec (2 * (hi + 1 - lo)) 2) as [_|Hgt]; [reflexivity|].
  exfalso. lia.
Defined.

(** ** The solver *)

Lemma final_state_is_body E n Rd K n_iter_max rho :
  (0 < n_iter_max)%nat ->
  exists s0,
    pecok_admm_state E n Rd K n_iter_max rho
    = admm_body E n (Rd / np_linalg_norm n Rd)%M K rho s0.
Proof.
  intros Hpos. unfold pecok_admm_state.
  destruct (admm_loop_passes E n (Rd / np_linalg_norm n Rd)%M K rho
              n_iter_max admm_init) as (k & _ & Heq & Hk & _).
  rewrite Heq. destruct k as [|k]; [specialize (Hk Hpos); lia|].
  eexists. reflexivity.
Qed.

(** X13.  Whatever the eigen-solver answers, for an input of non-zero norm
    and [rho <> 0] (elsewhere the code divides by zero and its [X] is
    [nan]), after a run of at least one pass on matrices of size at least 2
    the final [X] has unit row sums and trace [K], the final [Y] has no
    negative entry, and the final [Xbar] is the mean of the final [X], [Y]
    and [Z]. *)
Theorem pecok_admm_final_constraints E (n : nat) (Rd : mat) (K : R)
    (n_iter_max : nat) (rho : R) :
  (2 <= n)%nat -> (1 <= n_iter_max)%nat ->
  np_linalg_norm n Rd <> 0 -> rho <> 0 ->
  let s := pecok_admm_state E n Rd K n_iter_max rho in
  feasible n K (st_X s) /\
  (forall i j, 0 <= st_Y s i j) /\
  (forall i j, st_Xbar s i j = (st_X s i j + st_Y s i j + st_Z s i j) / 3).
Proof.
  intros Hn Hbudget _ _ s.
  destruct (final_state_is_body E n Rd K n_iter_max rho) as (s0 & Hs0);
    [lia|].
  unfold s. rewrite Hs0. simpl.
  split; [apply Hsymmetric_feasible; exact Hn|].
  split; [|reflexivity].
  intros i j. unfold proj_positive.
  destruct (Rlt_dec _ 0); lra.
Qed.

Lemma pecok_admm_final_constraints_witness :
  feasible 2 1 (st_X (pecok_admm_state eigh2 2 np_identity 1 3 1)).
Proof.
  apply (pecok_admm_final_constraints eigh2 2 np_identity 1 3 1);
    [lia|lia|exact np_identity_norm_2|exact R1_neq_R0].
Defined.

Lemma sumsq_all_zero n A :
  (forall i j, (i < n)%nat -> (j < n)%nat -> A i j = 0) -> sumsq n A = 0.
Proof.
  intros H. unfold sumsq. apply np_sum_zero; intros i Hi.
  apply np_sum_zero; intros j Hj. rewrite (H i j Hi Hj). lra.
Qed.

Lemma sumsq_msub_zero n A B :
  sumsq n (A - B)%M = 0 <-> mat_eq n A B.
Proof.
  split.
  - intros H i j Hi Hj. pose proof (sumsq_zero n _ H i j Hi Hj) as H0.
    unfold msub, np_zeros in H0. lra.
  - intros H. apply sumsq_all_zero. intros i j Hi Hj.
    unfold msub. rewrite (H i j Hi Hj). lra.
Qed.


Lemma norm_nonneg n A : 0 <= np_linalg_norm n A.
Proof. apply sqrt_pos. Qed.

Lemma is_primal_high_nonpositive n res X Y Z :
  res <= 0 -> is_primal_high n res X Y Z = false.
Proof.
  intros Hres. unfold is_primal_high.
  destruct (Rlt_dec _ res) as [Hlt|_]; [|reflexivity].
  exfalso.
  pose proof (norm_nonneg n Z) as HZ.
  pose proof (Rmax_r (Rmax (np_linalg_norm n X) (np_linalg_norm n Y))
                (np_linalg_norm n Z)) as Hmax.
  assert (Heps : 0 < epsilon) by (unfold epsilon; simpl; lra).
  assert (0 <= epsilon * Rmax (Rmax (np_linalg_norm n X)
                                    (np_linalg_norm n Y))
                              (np_linalg_norm n Z))
    by (apply Rmult_le_pos; lra).
  lra.
Qed.

Lemma is_dual_high_nonpositive n res Y Z :
  res <= 0 -> is_dual_high n res Y Z = false.
Proof.
  intros Hres. unfold is_dual_high.
  destruct (Rlt_dec _ res) as [Hlt|_]; [|reflexivity].
  exfalso.
  pose proof (norm_nonneg n Y) as HY. pose proof (norm_nonneg n Z) as HZ.
  pose proof (sqrt_pos (INR n)) as Hn.
  assert (Heps : 0 < epsilon) by (unfold epsilon; simpl; lra).
  assert (0 <= epsilon * (sqrt (INR n) + np_linalg_norm n Y
                          + np_linalg_norm n Z))
    by (apply Rmult_le_pos; lra).
  lra.
Qed.

(** X15.  The loop stops at a point of consensus whatever budget is left:
    if a pass ends with [X], [Y] and [Z] equal and with [Xbar] unchanged,
    no further pass is made. *)
Theorem admm_loop_stops_at_consensus E (n : nat) (Rd : mat) (K rho : R)
    (s : admm_state) (remaining : nat) :
  let s' := admm_body E n Rd K rho s in
  mat_eq n (st_X s') (st_Y s') -> mat_eq n (st_Y s') (st_Z s') ->
  mat_eq n (st_Xbar s') (st_Xbar s) ->
  admm_loop E n Rd K rho (S remaining) s = s'.
Proof.
  intros s' HXY HYZ HB.
  assert (HX : mat_eq n (st_X s') (st_Xbar s')).
  { intros i j Hi Hj.
    change (st_Xbar s') with ((st_X s' + st_Y s' + st_Z s') / 3)%M.
    unfold mdiv, madd.
    rewrite <- (HYZ i j Hi Hj), <- (HXY i j Hi Hj). field. }
  assert (HY : mat_eq n (st_Y s') (st_Xbar s')).
  { intros i j Hi Hj. rewrite <- (HXY i j Hi Hj). apply HX; assumption. }
  assert (HZ : mat_eq n (st_Z s') (st_Xbar s')).
  { intros i j Hi Hj. rewrite <- (HYZ i j Hi Hj). apply HY; assumption. }
  apply sumsq_msub_zero in HX, HY, HZ, HB.
  assert (Hlow : residuals_high n s' = false).
  { unfold residuals_high.
    change (st_res_primal s')
      with (Some (np_linalg_norm3 n (st_X s' - st_Xbar s')%M
                    (st_Z s' - st_Xbar s')%M (st_Y s' - st_Xbar s')%M)).
    change (st_res_dual s')
      with (Some (rho * np_linalg_norm n (st_Xbar s' - st_Xbar s)%M)).
    unfold np_linalg_norm3. unfold np_linalg_norm at 1.
    rewrite HX, HY, HZ, HB.
    replace (0 + 0 + 0) with 0 by lra. rewrite sqrt_0.
    rewrite is_primal_high_nonpositive by lra.
    rewrite is_dual_high_nonpositive by lra. reflexivity. }
  rewrite admm_loop_S. fold s'. rewrite Hlow. reflexivity.
Qed.

Lemma sumsq_mscale n c A : sumsq n (mscale c A) = (c * c) * sumsq n A.
Proof.
  unfold sumsq, mscale. rewrite <- np_sum_scal.
  apply np_sum_ext; intros i _. rewrite <- np_sum_scal.
  apply np_sum_ext; intros j _. ring.
Qed.

Lemma norm_mscale n c A :
  0 <= c -> np_linalg_norm n (mscale c A) = c * np_linalg_norm n A.
Proof.
  intros Hc. unfold np_linalg_norm.
  rewrite sumsq_mscale, sqrt_mult; [|nra|apply sumsq_nonneg].
  rewrite sqrt_square by exact Hc. reflexivity.
Qed.

(** X16.  The solver reads its input through the normalised matrix only:
    multiplying a non-zero input by a positive scalar changes nothing in
    what the call ends with. *)
Theorem pecok_admm_scale_invariant E (n : nat) (Rd : mat) (K : R)
    (n_iter_max : nat) (rho c : R) :
  0 < c -> np_linalg_norm n Rd <> 0 ->
  pecok_admm E n (mscale c Rd) K n_iter_max rho
  = pecok_admm E n Rd K n_iter_max rho.
Proof.
  intros Hc Hnorm.
  assert (Heq : (mscale c Rd / np_linalg_norm n (mscale c Rd))%M
                = (Rd / np_linalg_norm n Rd)%M).
  { apply functional_extensionality; intros i.
    apply functional_extensionality; intros j.
    unfold mdiv. rewrite norm_mscale by lra. unfold mscale.
    field. split; [exact Hnorm|lra]. }
  unfold pecok_admm. rewrite Heq. reflexivity.
Qed.

Lemma pecok_admm_scale_invariant_witness :
  pecok_admm eigh2 2 (mscale 3 np_identity) 1 2 1
  = pecok_admm eigh2 2 np_identity 1 2 1.
Proof.
  apply (pecok_admm_scale_invariant eigh2 2 np_identity 1 2 1 3);
    [lra|exact np_identity_norm_2].
Defined.

(** X17.  The matrix the loop works with, the input divided by its
    Frobenius norm, has Frobenius norm [1] whenever the input is not the
    zero matrix. *)
Theorem normalised_input_unit_norm (n : nat) (Rd : mat) :
  np_linalg_norm n Rd <> 0 ->
  np_linalg_norm n (Rd / np_linalg_norm n Rd)%M = 1.
Proof.
  intros Hnorm.
  replace (Rd / np_linalg_norm n Rd)%M
    with (mscale (/ np_linalg_norm n Rd) Rd).
  - pose proof (norm_nonneg n Rd) as Hpos.
    rewrite norm_mscale.
    + field. exact Hnorm.
    + apply Rlt_le, Rinv_0_lt_compat. lra.
  - apply functional_extensionality; intros i.
    apply functional_extensionality; intros j.
    unfold mscale, mdiv. field. exact Hnorm.
Qed.

Lemma normalised_input_unit_norm_witness :
  np_linalg_norm 2 run_Rn = 1.
Proof. apply (normalised_input_unit_norm 2 np_identity np_identity_norm_2). Defined.

Lemma circ_mat_eq A B a b : circ A a b -> circ B a b -> mat_eq 2 A B.
Proof.
  intros (H1 & H2 & H3 & H4) (H1' & H2' & H3' & H4') i j Hi Hj.
  destruct i as [|[|i]], j as [|[|j]]; try lia; congruence.
Qed.

Lemma admm_loop_stops_at_consensus_witness :
  admm_loop eigh2 2 run_Rn 2 1 6 admm_init
  = admm_body eigh2 2 run_Rn 2 1 admm_init.
Proof.
  destruct run_init_circ as (HB & HU & HV & HW).
  destruct run_Rn_circ as (ra & rb & HR).
  pose proof (circ_msub _ _ _ _ _ _ HB HV) as HYin.
  pose proof (circ_msub _ _ _ _ _ _ HB HW) as HZin.
  assert (HY : circ (proj_positive (st_Xbar admm_init - st_V admm_init)%M 0)
                 (1 - 0) (0 - 0))
    by (apply circ_proj_positive; [exact HYin|lra|lra]).
  assert (HZ : circ (proj_Snp_imp eigh2 2
                       (st_Xbar admm_init - st_W admm_init)%M)
                 (1 - 0) (0 - 0)).
  { rewrite (circ_proj_Snp_imp _ _ _ HZin); [exact HZin|lra|lra]. }
  destruct (body_circ_gen run_Rn 2 1 admm_init _ _ _ _ _ _ _ _ ra rb
              _ _ _ _ HB HU HV HW HR HY HZ)
    as (H1 & H2 & H3 & H4 & _).
  apply (admm_loop_stops_at_consensus eigh2 2 run_Rn 2 1 admm_init 5).
  - apply (circ_mat_eq _ _ 1 0);
      [apply (circ_eq _ _ _ _ _ H1)|apply (circ_eq _ _ _ _ _ H2)]; lra.
  - apply (circ_mat_eq _ _ 1 0);
      [apply (circ_eq _ _ _ _ _ H2)|apply (circ_eq _ _ _ _ _ H3)]; lra.
  - apply (circ_mat_eq _ _ 1 0);
      [apply (circ_eq _ _ _ _ _ H4); lra|exact HB].
Defined.

(** X18.  On a symmetric input of non-zero norm and size at least [2],
    with [rho <> 0] (elsewhere the code divides by zero and its arrays are
    [nan]) and a solver that is right on the symmetric matrices of size
    [n], every matrix of the final state is symmetric, whatever the budget:
    [X], [Y], [Z], the three duals and [Xbar]. *)
Theorem pecok_admm_state_symmetric E (n : nat) (Rd : mat) (K : R)
    (n_iter_max : nat) (rho : R) :
  eigh_correct E n -> symmetric n Rd ->
  (2 <= n)%nat -> np_linalg_norm n Rd <> 0 -> rho <> 0 ->
  state_symmetric n (pecok_admm_state E n Rd K n_iter_max rho).
Proof.
  intros HE HR _ _ _. unfold pecok_admm_state.
  apply admm_loop_invariant; [|apply state_symmetric_init].
  intros s Hs.
  apply (state_symmetric_body E n _ K rho s HE
           (mdiv_symmetric n Rd _ HR) Hs).
Qed.

Lemma pecok_admm_state_symmetric_witness :
  state_symmetric 2 (pecok_admm_state eigh2 2 np_identity 1 4 1).
Proof.
  apply (pecok_admm_state_symmetric eigh2 2 np_identity 1 4 1);
    [exact eigh2_correct|apply np_identity_symmetric|lia
    |exact np_identity_norm_2|exact R1_neq_R0].
Defined.
